(** * Verification of the glob matcher vendored in rtgrep

    Shallow embedding of [vendor/github.com/nilium/glob/glob.go]:
    the pattern compiler [compileGlobPattern], the four step scanners,
    the backtracking loop of the method [GlobPattern.Matches] and the
    package level [Matches].

    Go strings are byte sequences, modelled as [list byte]; Go [int]s
    are modelled as [Z] (no string handled here comes near 2^63).
    A slice expression out of range panics; a [for] loop that does not
    bound itself is run on fuel.  Both effects live in the [outcome]
    monad below. *)

From Stdlib Require Import List ZArith Zbitwise Lia Bool.
From Stdlib Require Import Strings.Byte Strings.String.
Import ListNotations.

Local Open Scope Z_scope.

(** ** Go strings *)

Definition gostring := list byte.

(** String literals of the source, written as Rocq strings. *)
Definition str (s : String.string) : gostring := list_byte_of_string s.

Definition len {A : Type} (s : list A) : Z := Z.of_nat (List.length s).

Fixpoint bytes_eqb (a b : gostring) : bool :=
  match a, b with
  | [], [] => true
  | x :: a', y :: b' => Byte.eqb x y && bytes_eqb a' b'
  | _, _ => false
  end.

(** ** Outcomes: a returned value, a run-time panic, or fuel exhausted *)

Inductive outcome (A : Type) : Type :=
| Ret (a : A)
| Panic
| Timeout.

Arguments Ret {A} a.
Arguments Panic {A}.
Arguments Timeout {A}.

Definition bind {A B : Type} (m : outcome A) (k : A -> outcome B) : outcome B :=
  match m with
  | Ret a => k a
  | Panic => Panic
  | Timeout => Timeout
  end.

Notation "x <- m ;; k" := (bind m (fun x => k))
  (at level 61, m at next level, right associativity).
Notation "' p <- m ;; k" := (bind m (fun x => let 'p := x in k))
  (at level 61, p pattern, m at next level, right associativity).

(** ** Slice and index expressions, with Go's bounds checks *)

(** [s[lo:hi]] *)
Definition slice (s : gostring) (lo hi : Z) : outcome gostring :=
  if (0 <=? lo) && (lo <=? hi) && (hi <=? len s)
  then Ret (firstn (Z.to_nat (hi - lo)) (skipn (Z.to_nat lo) s))
  else Panic.

(** [s[lo:]] *)
Definition slice_from (s : gostring) (lo : Z) : outcome gostring :=
  slice s lo (len s).

(** [s[:hi]] *)
Definition slice_to (s : gostring) (hi : Z) : outcome gostring :=
  slice s 0 hi.

(** [xs[i]] *)
Definition index {A : Type} (xs : list A) (i : Z) : outcome A :=
  if (0 <=? i) && (i <? len xs)
  then match nth_error xs (Z.to_nat i) with
       | Some x => Ret x
       | None => Panic
       end
  else Panic.

(** ** Errors of the package *)

Inductive error : Type :=
| ErrInvalidPatternType
| ErrPatternInvalid
| ErrPatternEmpty
| ErrInvalidGlobSequence
| EOF.   (* io.EOF, the only error of the ReadRune of strings.Reader *)

(** ** The Go standard library functions the package calls *)

Definition rune := Z.

Definition byteZ (b : byte) : Z := Z.of_N (Byte.to_N b).

Module utf8.

Definition RuneError : rune := 0xFFFD.
Definition RuneSelf : Z := 0x80.

(** A continuation byte of a UTF-8 sequence lies in [lo, hi]. *)
Definition in_range (lo hi : Z) (b : byte) : bool :=
  (lo <=? byteZ b) && (byteZ b <=? hi).

(** The table [first] of the package, read as: size of the sequence
    and accepted range of the second byte; [None] for an ASCII byte or
    an invalid leading byte. *)
Definition first (s0 : Z) : option (Z * Z * Z) :=
  if s0 <? 0xC2 then None
  else if s0 <=? 0xDF then Some (2, 0x80, 0xBF)
  else if s0 =? 0xE0 then Some (3, 0xA0, 0xBF)
  else if s0 <=? 0xEC then Some (3, 0x80, 0xBF)
  else if s0 =? 0xED then Some (3, 0x80, 0x9F)
  else if s0 <=? 0xEF then Some (3, 0x80, 0xBF)
  else if s0 =? 0xF0 then Some (4, 0x90, 0xBF)
  else if s0 <=? 0xF3 then Some (4, 0x80, 0xBF)
  else if s0 =? 0xF4 then Some (4, 0x80, 0x8F)
  else None.

(** The first code point of [s] and its width in bytes;
    [(RuneError, 0)] on the empty string and [(RuneError, 1)] on an
    invalid encoding. *)
Definition DecodeRuneInString (s : gostring) : rune * Z :=
  match s with
  | [] => (RuneError, 0)
  | b0 :: t =>
    let s0 := byteZ b0 in
    if s0 <? RuneSelf then (s0, 1)
    else match first s0 with
         | None => (RuneError, 1)
         | Some (sz, lo, hi) =>
           match t with
           | [] => (RuneError, 1)
           | b1 :: t1 =>
             if negb (in_range lo hi b1) then (RuneError, 1)
             else if sz <=? 2 then
               (Z.lor (Z.shiftl (Z.land s0 0x1F) 6) (Z.land (byteZ b1) 0x3F), 2)
             else match t1 with
                  | [] => (RuneError, 1)
                  | b2 :: t2 =>
                    if negb (in_range 0x80 0xBF b2) then (RuneError, 1)
                    else if sz <=? 3 then
                      (Z.lor (Z.lor (Z.shiftl (Z.land s0 0x0F) 12)
                                    (Z.shiftl (Z.land (byteZ b1) 0x3F) 6))
                             (Z.land (byteZ b2) 0x3F), 3)
                    else match t2 with
                         | [] => (RuneError, 1)
                         | b3 :: _ =>
                           if negb (in_range 0x80 0xBF b3) then (RuneError, 1)
                           else
                             (Z.lor (Z.lor (Z.lor (Z.shiftl (Z.land s0 0x07) 18)
                                                  (Z.shiftl (Z.land (byteZ b1) 0x3F) 12))
                                           (Z.shiftl (Z.land (byteZ b2) 0x3F) 6))
                                    (Z.land (byteZ b3) 0x3F), 4)
                         end
                  end
           end
         end
  end.

(** The number of bytes of the encoding of [r], -1 if it has none. *)
Definition RuneLen (r : rune) : Z :=
  if r <? 0 then -1
  else if r <=? 0x7F then 1
  else if r <=? 0x7FF then 2
  else if (0xD800 <=? r) && (r <=? 0xDFFF) then -1
  else if r <=? 0xFFFF then 3
  else if r <=? 0x10FFFF then 4
  else -1.

End utf8.

Module strings.

Fixpoint HasPrefix (s prefix : gostring) {struct prefix} : bool :=
  match prefix, s with
  | [], _ => true
  | p :: prefix', c :: s' => Byte.eqb p c && HasPrefix s' prefix'
  | _ :: _, [] => false
  end.

(** [Index_at s substr i]: the search of [Index], on a string that
    starts at offset [i] of the whole. *)
Fixpoint Index_at (s substr : gostring) (i : Z) : Z :=
  if HasPrefix s substr then i
  else match s with
       | [] => -1
       | _ :: s' => Index_at s' substr (i + 1)
       end.

(** The index of the first instance of [substr] in [s], or -1. *)
Definition Index (s substr : gostring) : Z := Index_at s substr 0.

(** [ReadRune] of a fresh [Reader] over [s]. *)
Definition ReadRune (s : gostring) : rune * Z * option error :=
  match s with
  | [] => (0, 0, Some EOF)
  | b0 :: _ =>
    if byteZ b0 <? utf8.RuneSelf then (byteZ b0, 1, None)
    else let '(ch, size) := utf8.DecodeRuneInString s in (ch, size, None)
  end.

End strings.

(** [for index, code := range s]: the pairs the loop visits, in order.
    [skip] counts the bytes of the current code point still to pass. *)
Fixpoint range_from (s : gostring) (i : Z) (skip : nat) : list (Z * rune) :=
  match s with
  | [] => []
  | _ :: s' =>
    match skip with
    | S k => range_from s' (i + 1) k
    | O => let '(code, size) := utf8.DecodeRuneInString s in
           (i, code) :: range_from s' (i + 1) (Z.to_nat (size - 1))
    end
  end.

Definition range_string (s : gostring) : list (Z * rune) := range_from s 0 0.

(** ** Steps of a compiled pattern *)

Inductive globKind : Type := globMany | globOne | globString | globEnd.

Definition globKind_eqb (a b : globKind) : bool :=
  match a, b with
  | globMany, globMany | globOne, globOne
  | globString, globString | globEnd, globEnd => true
  | _, _ => false
  end.

(** A [scanFunc] returns whether it matched, the input sans the matched
    bytes, and the number of bytes consumed.  The leading [nat] is the
    fuel of the one scanner that loops. *)
Definition scanFunc := nat -> gostring -> gostring -> outcome (bool * gostring * Z).

Record globScanner : Type := mkScanner {
  scanner : scanFunc;
  kind : globKind;
  substr : gostring;
  start : Z
}.

Definition set_substr (g : globScanner) (s : gostring) : globScanner :=
  mkScanner (scanner g) (kind g) s (start g).

Definition set_start (g : globScanner) (n : Z) : globScanner :=
  mkScanner (scanner g) (kind g) (substr g) n.

(** ** The step scanners *)

(** The [for subIndex != -1] loop of [consumeAllPreceding]; [offset] and
    [subIndex] are its two variables. *)
Fixpoint consumeAllPreceding_loop (fuel : nat) (s sub : gostring)
         (offset subIndex : Z) : outcome (bool * gostring * Z) :=
  match fuel with
  | O => Timeout
  | S fuel' =>
    if subIndex =? -1 then Ret (false, s, 0)
    else
      let offset := offset + subIndex in
      if 0 <? subIndex then
        rest <- slice_from s (offset + len sub) ;;
        Ret (true, rest, offset + len sub)
      else
        rest <- slice_from s (offset + subIndex + 1) ;;
        consumeAllPreceding_loop fuel' s sub offset (strings.Index rest sub)
  end.

Definition consumeAllPreceding : scanFunc := fun fuel s sub =>
  if len s =? 0 then Ret (len sub =? 0, s, 0)
  else if len sub =? 0 then
    rest <- slice_from s (len s) ;;
    Ret (true, rest, len s)
  else consumeAllPreceding_loop fuel s sub 0 (strings.Index s sub).

Definition is_err (e : option error) : bool :=
  match e with Some _ => true | None => false end.

Definition consumeOnePreceding : scanFunc := fun _ s sub =>
  if len s <? 1 then Ret (false, s, 0)
  else
    let '(_, size, err) := strings.ReadRune s in
    let rLen := len s - size in
    (* switch { case err != nil: ; case r.Len() < len(substr): return } *)
    if negb (is_err err) && (rLen <? len sub) then Ret (false, s, 0)
    else if is_err err then Ret (false, s, 0)
    else if len s <? len sub + 1 then Ret (false, s, 0)
    else if len sub =? 0 then
      rest <- slice_from s size ;;
      Ret (true, rest, size)
    else
      mid <- slice s size (size + len sub) ;;
      if negb (bytes_eqb mid sub) then
        rest <- slice_from s (size + len sub) ;;
        Ret (true, rest, size + len sub)
      else Ret (false, s, 0).

Definition consumeSubstring : scanFunc := fun _ s sub =>
  if len s <? len sub then Ret (false, s, 0)
  else if len sub =? 0 then Ret (true, s, 0)
  else
    head <- slice_to s (len sub) ;;
    if negb (bytes_eqb head sub) then Ret (false, s, 0)
    else
      rest <- slice_from s (len sub) ;;
      Ret (true, rest, len sub).

Definition consumeEnd : scanFunc := fun _ s sub =>
  Ret ((len s =? 0) && (len sub =? 0), s, 0).

(** ** The pattern compiler *)

Definition backslash : rune := 92.
Definition asterisk : rune := 42.
Definition question : rune := 63.

(** The [switch] at the head of the loop body: the scanner, the start
    and the kind chosen for [code], or [None] for [continue]. *)
Definition classify (idx : Z) (code : rune) : option (scanFunc * Z * globKind) :=
  if code =? backslash then Some (consumeSubstring, -1, globString)
  else if code =? asterisk then Some (consumeAllPreceding, -1, globMany)
  else if code =? question then Some (consumeOnePreceding, -1, globOne)
  else if idx =? 0 then Some (consumeSubstring, idx, globString)
  else None.

(** [wildcards[numWildcards-1]] is a pointer: writing through [last]
    changes the element held by the slice. *)
Fixpoint set_last (ws : list globScanner) (g : globScanner) : list globScanner :=
  match ws with
  | [] => []
  | [_] => [g]
  | w :: ws' => w :: set_last ws' g
  end.

(** How one turn of the loop body ends. *)
Inductive turn : Type :=
| Next (ws : list globScanner)   (* fall off the body, or [continue] *)
| Fail (e : error).              (* [return nil, e] *)

Definition compile_step (pattern : gostring) (ws : list globScanner)
           (idx : Z) (code : rune) : outcome turn :=
  match classify idx code with
  | None => Ret (Next ws)
  | Some (fn, start0, k) =>
    let numWildcards := len ws in
    let append ws1 :=
      let start1 := if start0 =? -1 then idx + utf8.RuneLen code else start0 in
      Ret (Next (ws1 ++ [mkScanner fn k [] start1])) in
    if 0 <? numWildcards then
      last <- index ws (numWildcards - 1) ;;
      if (globKind_eqb k globOne || globKind_eqb k globMany)
           && globKind_eqb (kind last) globMany && (start last =? idx)
      then Ret (Fail ErrInvalidGlobSequence)
      else if (code =? backslash) && (len (substr last) =? 0) then
        Ret (Next (set_last ws (set_start last (start last + utf8.RuneLen code))))
      else
        sub <- slice pattern (start last) idx ;;
        append (set_last ws (set_substr last sub))
    else append ws
  end.

Fixpoint compile_loop (pattern : gostring) (ws : list globScanner)
         (rs : list (Z * rune)) : outcome turn :=
  match rs with
  | [] => Ret (Next ws)
  | (idx, code) :: rs' =>
    t <- compile_step pattern ws idx code ;;
    match t with
    | Next ws' => compile_loop pattern ws' rs'
    | Fail e => Ret (Fail e)
    end
  end.

(** A Go slice is [nil] or a list: [None] is the nil slice. *)
Definition compileGlobPattern (pattern : gostring)
  : outcome (option (list globScanner) * option error) :=
  t <- compile_loop pattern [] (range_string pattern) ;;
  match t with
  | Fail e => Ret (None, Some e)
  | Next ws =>
    let numWildcards := len ws in
    ws1 <- (if 0 <? numWildcards then
              last <- index ws (numWildcards - 1) ;;
              sub <- slice_from pattern (start last) ;;
              Ret (set_last ws (set_substr last sub))
            else Ret ws) ;;
    Ret (Some (ws1 ++ [mkScanner consumeEnd globEnd [] (len pattern)]), None)
  end.

Record GlobPattern : Type := mkGlobPattern {
  pattern : gostring;
  steps : list globScanner
}.

Definition NewPattern (pat : gostring) : outcome (option GlobPattern * option error) :=
  '(steps, err) <- compileGlobPattern pat ;;
  match err, steps with
  | Some e, _ => Ret (None, Some e)
  | None, None => Ret (None, Some ErrPatternInvalid)
  | None, Some ss =>
    if len ss =? 0 then Ret (None, Some ErrPatternEmpty)
    else Ret (Some (mkGlobPattern pat ss), None)
  end.

(** ** The backtracking matcher *)

(** The local variables of the method [Matches].  [rest] is the local
    the source calls [substr] (the name is taken by the step's field). *)
Record cursor : Type := mkCursor {
  stepIndex : Z;
  rest : gostring;
  matches : bool;
  bytesConsumed : Z;
  firstMany : Z;
  firstManySubstr : gostring;
  wasReset : bool
}.

Definition initial (s : gostring) : cursor :=
  mkCursor 0 s false 0 (-1) s false.

(** The first statement of the loop body: note the first [globMany]
    step and the input it is entered with. *)
Definition record_many (test : globScanner) (c : cursor) : cursor :=
  if ((firstMany c =? -1) || (firstMany c =? stepIndex c))
       && globKind_eqb (kind test) globMany
  then mkCursor (stepIndex c) (rest c) (matches c) (bytesConsumed c)
                (stepIndex c) (rest c) (wasReset c)
  else c.

(** The scan, and the update of the checkpoint after a match of the
    first [globMany] step. *)
Definition scan (fuel : nat) (test : globScanner) (c : cursor) : outcome cursor :=
  '(m, s, n) <- scanner test fuel (rest c) (substr test) ;;
  if m && (firstMany c =? stepIndex c) then
    fms <- slice_from (firstManySubstr c) (n - len (substr test)) ;;
    Ret (mkCursor (stepIndex c) s m n (firstMany c) fms (wasReset c))
  else
    Ret (mkCursor (stepIndex c) s m n (firstMany c) (firstManySubstr c) (wasReset c)).

Inductive transition : Type :=
| Continue (c : cursor)
| Return (b : bool).

(** The [if !matches ... else ...] that ends the loop body. *)
Definition advance (c : cursor) : outcome transition :=
  if negb (matches c) then
    if (firstMany c =? -1) || (stepIndex c =? 0) || wasReset c
         || (len (firstManySubstr c) =? 0)
    then Ret (Return false)
    else
      s <- slice_from (firstManySubstr c) 1 ;;
      Ret (Continue (mkCursor (firstMany c) s (matches c) (bytesConsumed c)
                              (firstMany c) (firstManySubstr c) true))
  else
    Ret (Continue (mkCursor (stepIndex c + 1) (rest c) (matches c) (bytesConsumed c)
                            (firstMany c) (firstManySubstr c) false)).

Definition Matches_body (fuel : nat) (steps : list globScanner) (c : cursor)
  : outcome transition :=
  test <- index steps (stepIndex c) ;;
  c1 <- scan fuel test (record_many test c) ;;
  advance c1.

Fixpoint Matches_loop (fuel : nat) (steps : list globScanner) (c : cursor)
  : outcome bool :=
  match fuel with
  | O => Timeout
  | S fuel' =>
    if stepIndex c <? len steps then
      t <- Matches_body fuel' steps c ;;
      match t with
      | Continue c' => Matches_loop fuel' steps c'
      | Return b => Ret b
      end
    else Ret ((len (rest c) =? 0) && (stepIndex c =? len steps))
  end.

(** The method [Matches] of a compiled pattern. *)
Definition GlobPattern_Matches (fuel : nat) (p : GlobPattern) (s : gostring)
  : outcome bool :=
  Matches_loop fuel (steps p) (initial s).

(** The method [String] of a compiled pattern. *)
Definition GlobPattern_String (p : GlobPattern) : gostring := pattern p.

(** ** The pattern surface *)

(** A value of interface type [Pattern]: the nil interface, a pointer to
    a compiled pattern (possibly the nil pointer), a [Literal] or a
    [PatternStr].  No other type can implement the interface, whose one
    method is unexported. *)
Inductive Pattern : Type :=
| NilPattern
| Compiled (g : option GlobPattern)
| Literal (l : gostring)
| PatternStr (p : gostring).

Inductive matcher : Type :=
| matcher_glob (g : option GlobPattern)
| matcher_literal (l : gostring).

Definition compiled (p : Pattern) : outcome (matcher * option error) :=
  match p with
  | NilPattern => Panic
  | Compiled g => Ret (matcher_glob g, None)
  | Literal l => Ret (matcher_literal l, None)
  | PatternStr s => '(g, err) <- NewPattern s ;; Ret (matcher_glob g, err)
  end.

Definition Literal_Matches (l s : gostring) : bool := bytes_eqb l s.

Definition matcher_Matches (fuel : nat) (m : matcher) (s : gostring) : outcome bool :=
  match m with
  | matcher_glob None => Panic
  | matcher_glob (Some g) => GlobPattern_Matches fuel g s
  | matcher_literal l => Ret (Literal_Matches l s)
  end.

(** The package level [Matches]. *)
Definition Matches (fuel : nat) (p : Pattern) (s : gostring)
  : outcome (bool * option error) :=
  '(c, err) <- compiled p ;;
  if is_err err then Ret (false, err)
  else
    b <- matcher_Matches fuel c s ;;
    Ret (b, None).

(** ** The caller: the file name filter of [search] in main.go *)

(** How a call of the function that [search] hands to [filepath.Walk]
    ends: it returns the error it was given, it returns nil without
    offering the path, or it reaches the [select] that offers the path
    to the channel. *)
Inductive visit (E : Type) : Type :=
| visit_error (e : E)
| visit_skip
| visit_select.

Arguments visit_error {E} e.
Arguments visit_skip {E}.
Arguments visit_select {E}.

(** The body of that function up to its [select].  [err] is the error
    the walk passes in, [isRegular] and [isDir] are what
    [info.Mode().IsRegular()] and [info.IsDir()] return, [name] is
    [info.Name()]. *)
Definition walk_visit {E : Type} (fuel : nat) (filepattern : gostring)
           (err : option E) (isRegular isDir : bool) (name : gostring)
  : outcome (visit E) :=
  match err with
  | Some e => Ret (visit_error e)
  | None =>
    if negb isRegular then Ret visit_skip
    else
      '(ok, err') <- Matches fuel (PatternStr filepattern) name ;;
      if is_err err' then Ret visit_skip
      else if negb isDir && negb ok then Ret visit_skip
      else Ret visit_select
  end.

(** ** Vocabulary of the properties *)

(** The scanner the compiler pairs with each kind of step. *)
Definition scanner_of_kind (k : globKind) : scanFunc :=
  match k with
  | globMany => consumeAllPreceding
  | globOne => consumeOnePreceding
  | globString => consumeSubstring
  | globEnd => consumeEnd
  end.

(** A step whose scanner is the one of its kind. *)
Definition step_wf (t : globScanner) : Prop := scanner t = scanner_of_kind (kind t).

(** What the comment on [scanFunc] asks of a result on the input [s]
    with the tail [sub]: the bytes consumed are dropped from the front
    of the input, a failure consumes nothing, a match consumes the tail
    at least. *)
Definition scan_result_ok (s sub : gostring) (r : bool * gostring * Z) : Prop :=
  let '(m, s', n) := r in
  0 <= n <= len s /\ s' = skipn (Z.to_nat n) s /\
  (m = false -> n = 0) /\ (m = true -> len sub <= n).

(** The string [u] is one code point: not empty, and the first code
    point decoded from it takes all its bytes. *)
Definition one_code_point (u : gostring) : bool :=
  negb (len u =? 0) && (snd (utf8.DecodeRuneInString u) =? len u).

(** The indices of [rs] are at least [lo], increase strictly and stay
    below [hi]. *)
Fixpoint increasing (lo : Z) (rs : list (Z * rune)) (hi : Z) : Prop :=
  match rs with
  | [] => lo <= hi
  | (idx, _) :: rs' => lo <= idx /\ increasing (idx + 1) rs' hi
  end.

(** A step as the compiler's loop makes them: its scanner is that of its
    kind, it is not an End step, and it is a [globMany] step only if the
    pattern holds an asterisk. *)
Definition step_ok (pat : gostring) (t : globScanner) : Prop :=
  step_wf t /\ kind t <> globEnd /\ (kind t = globMany -> In "*"%byte pat).

(** What the compiler's loop keeps true of [wildcards] before it reads
    the code point at an index [lo] or later: the last step has no tail
    yet, and its tail starts at or before [lo]. *)
Definition compile_inv (pat : gostring) (ws : list globScanner) (lo : Z) : Prop :=
  Forall (step_ok pat) ws /\
  (ws = [] \/
   exists init l, ws = init ++ [l] /\ substr l = [] /\ 0 <= start l <= lo).

(** Within the loop's [wildcards]: a step that follows another is no
    literal step, and a [globMany] step that another step follows has a
    tail that is not empty. *)
Fixpoint tails_ok (ws : list globScanner) : Prop :=
  match ws with
  | x :: ((y :: _) as tl) =>
    (kind x = globMany -> substr x <> []) /\ kind y <> globString /\ tails_ok tl
  | _ => True
  end.

(** The same of a whole step sequence, where the End step may follow a
    [globMany] step whose tail is empty. *)
Fixpoint adjacent_ok (ss : list globScanner) : Prop :=
  match ss with
  | x :: ((y :: _) as tl) =>
    kind y <> globString /\
    (kind x = globMany -> kind y <> globEnd -> substr x <> []) /\
    adjacent_ok tl
  | _ => True
  end.

(** The step the compiler appends after its loop. *)
Definition End_step (pat : gostring) : globScanner :=
  mkScanner consumeEnd globEnd [] (len pat).

(** The steps of a pattern made of the plain text [p] and one closing
    wildcard [w] of kind [k]: the text as a literal step, unless it is
    empty, the wildcard with an empty tail, and the End step. *)
Definition trailing_steps (p : gostring) (w : byte) (k : globKind) : list globScanner :=
  match p with
  | [] => []
  | _ :: _ => [mkScanner consumeSubstring globString p 0]
  end
  ++ [mkScanner (scanner_of_kind k) k [] (len p + 1); End_step (p ++ [w])].

(** The steps of a pattern made of the plain text [p], an asterisk and
    the plain text [q]. *)
Definition infix_steps (p q : gostring) : list globScanner :=
  match p with
  | [] => []
  | _ :: _ => [mkScanner consumeSubstring globString p 0]
  end
  ++ [mkScanner consumeAllPreceding globMany q (len p + 1);
      End_step (p ++ "*"%byte :: q)].

(** The steps of the pattern [*a]. *)
Definition star_a : GlobPattern :=
  mkGlobPattern (str "*a")
    [mkScanner consumeAllPreceding globMany (str "a") 1; End_step (str "*a")].

(** The compiled empty pattern. *)
Definition empty_pattern : GlobPattern := mkGlobPattern [] [End_step []].

(** The bytes with a meaning in a pattern: the backslash and the two
    wildcards. *)
Definition special (b : byte) : bool :=
  Byte.eqb b "\"%byte || Byte.eqb b "*"%byte || Byte.eqb b "?"%byte.

(** No byte of [p] is a backslash, an asterisk or a question mark. *)
Definition plain (p : gostring) : bool := forallb (fun b => negb (special b)) p.

Definition no_special (p : gostring) : Prop :=
  ~ In "\"%byte p /\ ~ In "*"%byte p /\ ~ In "?"%byte p.

(** The steps a plain, non-empty pattern compiles to: the pattern itself
    as one literal step, then the End step. *)
Definition literal_steps (p : gostring) : list globScanner :=
  [mkScanner consumeSubstring globString p 0; End_step p].

(** No step of [ss] before index [i] is a [globMany] step. *)
Definition no_many_before (ss : list globScanner) (i : Z) : Prop :=
  forall j t, 0 <= j < i -> index ss j = Ret t -> kind t <> globMany.

(** [i] is the index of the first [globMany] step of [ss]. *)
Definition first_many (ss : list globScanner) (i : Z) : Prop :=
  (exists t, index ss i = Ret t /\ kind t = globMany) /\ no_many_before ss i.

(** The cursors the loop of [Matches] passes through at the head of its
    body, on the steps [ss] and the candidate [s]. *)
Inductive reachable (ss : list globScanner) (s : gostring) : cursor -> Prop :=
| reach_initial : reachable ss s (initial s)
| reach_turn (fuel : nat) (c c' : cursor) :
    reachable ss s c ->
    stepIndex c < len ss ->
    Matches_body fuel ss c = Ret (Continue c') ->
    reachable ss s c'.

(** What the loop keeps true of [firstMany]: it is -1 while no [globMany]
    step has been met, and the index of the first one afterwards. *)
Definition checkpoint_inv (ss : list globScanner) (c : cursor) : Prop :=
  0 <= stepIndex c /\
  ((firstMany c = -1 /\ no_many_before ss (stepIndex c)) \/
   (first_many ss (firstMany c) /\ firstMany c <= stepIndex c)).

(** The steps of the pattern [*ab]. *)
Definition star_ab : list globScanner :=
  [mkScanner consumeAllPreceding globMany (str "ab") 1; End_step (str "*ab")].

(** * Properties *)

(** ** Byte strings, slices *)

Lemma bytes_eqb_eq (a b : gostring) : bytes_eqb a b = true <-> a = b.
Proof.
  revert b; induction a as [|x a IH]; intros [|y b]; simpl;
    try (split; [discriminate | intros H; discriminate H]); [tauto|].
  rewrite andb_true_iff, IH. split.
  - intros [H ->]. apply Byte.byte_dec_bl in H. now subst.
  - intros H; injection H as -> ->. split; [apply Byte.byte_dec_lb|]; reflexivity.
Qed.

Lemma bytes_eqb_refl (a : gostring) : bytes_eqb a a = true.
Proof. now apply bytes_eqb_eq. Qed.

Lemma len_nil {A : Type} : len (@nil A) = 0.
Proof. reflexivity. Qed.

Lemma len_cons {A : Type} (x : A) (xs : list A) : len (x :: xs) = len xs + 1.
Proof. unfold len. simpl List.length. lia. Qed.

Lemma len_app {A : Type} (xs ys : list A) : len (xs ++ ys) = len xs + len ys.
Proof. unfold len. rewrite length_app. lia. Qed.

Lemma len_nonneg {A : Type} (xs : list A) : 0 <= len xs.
Proof. unfold len. lia. Qed.

Lemma len_zero {A : Type} (xs : list A) : len xs = 0 <-> xs = [].
Proof.
  destruct xs; [rewrite len_nil | rewrite len_cons; pose proof (len_nonneg xs)];
    split; (reflexivity || discriminate || lia).
Qed.

Lemma slice_ok (s : gostring) (lo hi : Z) :
  0 <= lo <= hi -> hi <= len s ->
  slice s lo hi = Ret (firstn (Z.to_nat (hi - lo)) (skipn (Z.to_nat lo) s)).
Proof.
  intros H1 H2. unfold slice.
  replace ((0 <=? lo) && (lo <=? hi) && (hi <=? len s)) with true; [reflexivity|].
  symmetry. rewrite !andb_true_iff, !Z.leb_le. lia.
Qed.

Lemma slice_to_ok (s : gostring) (n : Z) :
  0 <= n <= len s -> slice_to s n = Ret (firstn (Z.to_nat n) s).
Proof.
  intros H. unfold slice_to. rewrite slice_ok by lia. now rewrite Z.sub_0_r.
Qed.

Lemma slice_from_ok (s : gostring) (n : Z) :
  0 <= n <= len s -> slice_from s n = Ret (skipn (Z.to_nat n) s).
Proof.
  intros H. unfold slice_from. rewrite slice_ok by lia.
  rewrite firstn_all2; [reflexivity|]. rewrite length_skipn. unfold len. lia.
Qed.

Lemma slice_from_0 (s : gostring) : slice_from s 0 = Ret s.
Proof. rewrite slice_from_ok; [reflexivity|]. pose proof (len_nonneg s). lia. Qed.

Lemma slice_from_1 (b : byte) (s : gostring) : slice_from (b :: s) 1 = Ret s.
Proof.
  rewrite slice_from_ok; [reflexivity|].
  rewrite len_cons. pose proof (len_nonneg s). lia.
Qed.

Lemma slice_from_len (s : gostring) : slice_from s (len s) = Ret [].
Proof.
  rewrite slice_from_ok by (pose proof (len_nonneg s); lia).
  unfold len. rewrite Nat2Z.id. now rewrite skipn_all.
Qed.

(** ** [strings.Index] *)

Lemma Index_prefix (s sub : gostring) : strings.HasPrefix s sub = true -> strings.Index s sub = 0.
Proof. unfold strings.Index. destruct s; simpl; intros ->; reflexivity. Qed.

(** ** The multi-character wildcard scanner *)

(** The loop restarts its search at [s[offset+subIndex+1:]] but counts
    the result from [offset]: once the tail is found at the very start
    of that slice, neither variable changes any more. *)
Lemma consumeAllPreceding_loop_stuck (b : byte) (s sub : gostring) (fuel : nat) :
  strings.HasPrefix s sub = true ->
  consumeAllPreceding_loop fuel (b :: s) sub 0 0 = Timeout.
Proof.
  intros Hp. induction fuel as [|fuel IH]; [reflexivity|].
  cbn [consumeAllPreceding_loop]. change (0 =? -1) with false.
  change (0 <? 0) with false. cbv iota. change (0 + 0 + 1) with 1.
  rewrite slice_from_1. cbn [bind]. rewrite (Index_prefix _ _ Hp). exact IH.
Qed.

(** The scan does not return when the tail, not empty, stands both at
    byte 0 and at byte 1 of the input. *)
Lemma consumeAllPreceding_diverges (b : byte) (s sub : gostring) (fuel : nat) :
  sub <> [] ->
  strings.HasPrefix (b :: s) sub = true ->
  strings.HasPrefix s sub = true ->
  consumeAllPreceding fuel (b :: s) sub = Timeout.
Proof.
  intros Hne H0 H1. unfold consumeAllPreceding.
  destruct (len (b :: s) =? 0) eqn:E.
  { apply Z.eqb_eq, len_zero in E. discriminate. }
  destruct (len sub =? 0) eqn:E'.
  { apply Z.eqb_eq, len_zero in E'. contradiction. }
  rewrite (Index_prefix _ _ H0). now apply consumeAllPreceding_loop_stuck.
Qed.

Lemma has_prefix_len (s sub : gostring) : strings.HasPrefix s sub = true -> len sub <= len s.
Proof.
  revert s; induction sub as [|x sub IH]; intros s; [intros _; apply len_nonneg|].
  destruct s as [|c s]; cbn [strings.HasPrefix]; [discriminate|].
  rewrite andb_true_iff, !len_cons. intros [_ H]. apply IH in H. lia.
Qed.

(** An index returned by [strings.Index] leaves room for the whole of
    [sub] in [s]. *)
Lemma Index_at_bounds (s sub : gostring) :
  forall i, 0 <= i ->
            strings.Index_at s sub i = -1 \/
            (i <= strings.Index_at s sub i /\ strings.Index_at s sub i - i + len sub <= len s).
Proof.
  induction s as [|c s IH]; intros i Hi; cbn [strings.Index_at].
  - destruct (strings.HasPrefix [] sub) eqn:E; [right | now left].
    apply has_prefix_len in E. lia.
  - destruct (strings.HasPrefix (c :: s) sub) eqn:E.
    + right. apply has_prefix_len in E. lia.
    + destruct (IH (i + 1)) as [H|H]; [lia | now left | right].
      rewrite len_cons. lia.
Qed.

Lemma Index_bounds (s sub : gostring) :
  strings.Index s sub = -1 \/ (0 <= strings.Index s sub /\ strings.Index s sub + len sub <= len s).
Proof.
  unfold strings.Index.
  destruct (Index_at_bounds s sub 0) as [H|H]; [lia | now left | right]. lia.
Qed.

(** With an empty tail the scan takes the whole input. *)
Lemma consumeAllPreceding_empty_tail (fuel : nat) (s : gostring) :
  consumeAllPreceding fuel s [] = Ret (true, [], len s).
Proof.
  unfold consumeAllPreceding. destruct (len s =? 0) eqn:E.
  - apply Z.eqb_eq in E. rewrite E. apply len_zero in E. now subst.
  - change (len [] =? 0) with true. cbv iota. now rewrite slice_from_len.
Qed.

(** What the scan returns on a tail that is not empty, by the index [k]
    of the tail in the input and, when that is 0, its index [j] in the
    input less its first byte.  The last case is that of
    [consumeAllPreceding_diverges]. *)
Lemma consumeAllPreceding_cases (fuel : nat) (b : byte) (s sub : gostring) :
  sub <> [] ->
  let k := strings.Index (b :: s) sub in
  let j := strings.Index s sub in
  (k = -1 -> consumeAllPreceding (1 + fuel)%nat (b :: s) sub = Ret (false, b :: s, 0)) /\
  (0 < k -> consumeAllPreceding (1 + fuel)%nat (b :: s) sub
            = Ret (true, skipn (Z.to_nat (k + len sub)) (b :: s), k + len sub)) /\
  (k = 0 -> j = -1 ->
   consumeAllPreceding (2 + fuel)%nat (b :: s) sub = Ret (false, b :: s, 0)) /\
  (k = 0 -> 0 < j ->
   consumeAllPreceding (2 + fuel)%nat (b :: s) sub
   = Ret (true, skipn (Z.to_nat (j + len sub)) (b :: s), j + len sub)).
Proof.
  intros Hne k j. unfold consumeAllPreceding.
  destruct (len (b :: s) =? 0) eqn:E; [apply Z.eqb_eq, len_zero in E; discriminate|].
  destruct (len sub =? 0) eqn:E'; [apply Z.eqb_eq, len_zero in E'; contradiction|].
  fold k. pose proof (Index_bounds (b :: s) sub) as Hk. fold k in Hk.
  pose proof (Index_bounds s sub) as Hj. fold j in Hj. rewrite len_cons in Hk.
  pose proof (len_nonneg sub) as Hs.
  repeat split.
  - intros ->. reflexivity.
  - intros Hpos. cbn [Nat.add consumeAllPreceding_loop].
    destruct (k =? -1) eqn:E1; [apply Z.eqb_eq in E1; lia|].
    apply Z.ltb_lt in Hpos as Hpos'. rewrite Hpos'. change (0 + k) with k.
    rewrite slice_from_ok by (rewrite len_cons; lia). reflexivity.
  - intros -> Hj1. cbn [Nat.add consumeAllPreceding_loop].
    change (0 =? -1) with false. change (0 <? 0) with false. cbv iota.
    change (0 + 0 + 1) with 1. rewrite slice_from_1. cbn [bind]. fold j.
    rewrite Hj1. reflexivity.
  - intros -> Hpos. cbn [Nat.add consumeAllPreceding_loop].
    change (0 =? -1) with false. change (0 <? 0) with false. cbv iota.
    change (0 + 0 + 1) with 1. rewrite slice_from_1. cbn [bind]. fold j.
    destruct (j =? -1) eqn:E1; [apply Z.eqb_eq in E1; lia|].
    apply Z.ltb_lt in Hpos as Hpos'. rewrite Hpos'. change (0 + 0 + j) with j.
    rewrite slice_from_ok by (rewrite len_cons; lia). reflexivity.
Qed.

(** ** The compiler's result *)

(** Whatever the loop leaves, a successful compilation ends by appending
    the End step. *)
Lemma compileGlobPattern_Some (pat : gostring) (ss : list globScanner) (e : option error) :
  compileGlobPattern pat = Ret (Some ss, e) ->
  e = None /\ exists ws, ss = ws ++ [End_step pat].
Proof.
  unfold compileGlobPattern.
  destruct (compile_loop pat [] (range_string pat)) as [[ws|err]| |];
    cbn [bind]; try discriminate.
  destruct (0 <? len ws).
  - destruct (index ws (len ws - 1)) as [last| |]; cbn [bind]; try discriminate.
    destruct (slice_from pat (start last)) as [sub| |]; cbn [bind]; try discriminate.
    intros H; injection H as H1 H2; subst. split; [reflexivity|]. now eexists.
  - cbn [bind]. intros H; injection H as H1 H2; subst. split; [reflexivity|]. now eexists.
Qed.

Lemma compileGlobPattern_None (pat : gostring) (e : option error) :
  compileGlobPattern pat = Ret (None, e) -> exists err, e = Some err.
Proof.
  unfold compileGlobPattern.
  destruct (compile_loop pat [] (range_string pat)) as [[ws|err]| |];
    cbn [bind]; try discriminate.
  - destruct (0 <? len ws).
    + destruct (index ws (len ws - 1)) as [last| |]; cbn [bind]; try discriminate.
      destruct (slice_from pat (start last)) as [sub| |]; cbn [bind]; discriminate.
    + cbn [bind]. discriminate.
  - intros H; injection H as <-. now eexists.
Qed.

Lemma NewPattern_Some (pat : gostring) (g : GlobPattern) (e : option error) :
  NewPattern pat = Ret (Some g, e) ->
  e = None /\ pattern g = pat /\ exists ws, steps g = ws ++ [End_step pat].
Proof.
  unfold NewPattern.
  destruct (compileGlobPattern pat) as [[[ss|] [err|]]| |] eqn:E;
    cbn [bind]; try discriminate.
  destruct (len ss =? 0); [discriminate|].
  intros H; injection H as H1 H2; subst. apply compileGlobPattern_Some in E.
  destruct E as [_ [ws ->]]. split; [reflexivity|]. split; [reflexivity|]. now eexists.
Qed.

Lemma compile_step_Fail (pat : gostring) (ws : list globScanner) (i : Z) (c : rune)
      (e : error) :
  compile_step pat ws i c = Ret (Fail e) -> e = ErrInvalidGlobSequence.
Proof.
  unfold compile_step. destruct (classify i c) as [[[fn st] k]|]; [|discriminate].
  destruct (0 <? len ws); [|discriminate].
  destruct (index ws (len ws - 1)) as [last| |]; cbn [bind]; try discriminate.
  destruct (_ && _ && _); [intros H; now injection H|].
  destruct (_ && _); [discriminate|].
  destruct (slice pat (start last) i); cbn [bind]; discriminate.
Qed.

Lemma compile_loop_Fail (pat : gostring) (rs : list (Z * rune)) :
  forall ws e, compile_loop pat ws rs = Ret (Fail e) -> e = ErrInvalidGlobSequence.
Proof.
  induction rs as [|[i c] rs IH]; intros ws e; cbn [compile_loop]; [discriminate|].
  destruct (compile_step pat ws i c) as [[ws'|e']| |] eqn:E; cbn [bind];
    try discriminate.
  - apply IH.
  - intros H; injection H as <-. now apply compile_step_Fail in E.
Qed.

(** The only error of the compiler is [ErrInvalidGlobSequence]. *)
Lemma compileGlobPattern_error (pat : gostring) ss (e : error) :
  compileGlobPattern pat = Ret (ss, Some e) -> ss = None /\ e = ErrInvalidGlobSequence.
Proof.
  destruct ss as [ss|]; intros H.
  - apply compileGlobPattern_Some in H. destruct H; discriminate.
  - split; [reflexivity|]. revert H. unfold compileGlobPattern.
    destruct (compile_loop pat [] (range_string pat)) as [[ws|err]| |] eqn:E;
      cbn [bind]; try discriminate.
    + destruct (0 <? len ws).
      * destruct (index ws (len ws - 1)) as [last| |]; cbn [bind]; try discriminate.
        destruct (slice_from pat (start last)) as [sub| |]; cbn [bind]; discriminate.
      * cbn [bind]. discriminate.
    + intros H; injection H as <-. now apply compile_loop_Fail in E.
Qed.

Lemma NewPattern_error (pat : gostring) g (e : error) :
  NewPattern pat = Ret (g, Some e) -> g = None /\ e = ErrInvalidGlobSequence.
Proof.
  unfold NewPattern.
  destruct (compileGlobPattern pat) as [[[ss|] [err|]]| |] eqn:E;
    cbn [bind]; try discriminate.
  - apply compileGlobPattern_Some in E. destruct E; discriminate.
  - apply compileGlobPattern_Some in E. destruct E as [_ [ws ->]].
    rewrite len_app, len_cons, len_nil. pose proof (len_nonneg ws).
    destruct (len ws + (0 + 1) =? 0) eqn:E; [apply Z.eqb_eq in E; lia|].
    discriminate.
  - apply compileGlobPattern_error in E. destruct E as [_ ->].
    intros H; injection H as <- <-. now split.
  - apply compileGlobPattern_None in E. destruct E; discriminate.
Qed.

(** ** The matcher's loop *)

(** A scan that does not return leaves the whole match without result. *)
Lemma Matches_loop_scan_timeout (fuel : nat) (ss : list globScanner)
      (c : cursor) (test : globScanner) :
  index ss (stepIndex c) = Ret test ->
  (forall f, scanner test f (rest (record_many test c)) (substr test) = Timeout) ->
  Matches_loop fuel ss c = Timeout.
Proof.
  intros Hi Hs. destruct fuel as [|fuel]; [reflexivity|].
  cbn [Matches_loop]. destruct (stepIndex c <? len ss) eqn:E.
  - unfold Matches_body. rewrite Hi. cbn [bind]. unfold scan.
    rewrite Hs. reflexivity.
  - unfold index in Hi. rewrite E, andb_false_r in Hi. discriminate.
Qed.

(** C1 (the code departs from it).  Matching is not total: the pattern
    [*a] compiles, and matching it against the candidate [aa] never
    returns, whatever the fuel, because the multi-character wildcard scan
    loops for ever on a tail found at bytes 0 and 1 of its input. *)
Theorem Matches_star_a_never_returns (fuel : nat) :
  NewPattern (str "*a") = Ret (Some star_a, None) /\
  GlobPattern_Matches fuel star_a (str "aa") = Timeout /\
  Matches fuel (PatternStr (str "*a")) (str "aa") = Timeout.
Proof.
  assert (Hc : NewPattern (str "*a") = Ret (Some star_a, None)) by reflexivity.
  assert (Hm : GlobPattern_Matches fuel star_a (str "aa") = Timeout).
  { unfold GlobPattern_Matches.
    apply Matches_loop_scan_timeout
      with (test := mkScanner consumeAllPreceding globMany (str "a") 1);
      [reflexivity|].
    intros f. cbn [scanner substr]. change (rest _) with (str "aa").
    now apply consumeAllPreceding_diverges. }
  split; [exact Hc|]. split; [exact Hm|].
  unfold Matches, compiled. rewrite Hc. cbn [bind is_err matcher_Matches].
  rewrite Hm. reflexivity.
Qed.

(** C2 (the code departs from it).  The backslash does not make the next
    code point literal: the pattern backslash-star compiles to an empty
    literal step, a multi-character wildcard and the End step, so it
    matches the candidate [x] as well as the candidate [*]. *)
Theorem escaped_star_is_still_a_wildcard (fuel : nat) :
  (exists g, NewPattern (str "\*") = Ret (Some g, None) /\
             map (fun s => (kind s, substr s)) (steps g)
             = [(globString, []); (globMany, []); (globEnd, [])]) /\
  Matches (4 + fuel) (PatternStr (str "\*")) (str "*") = Ret (true, None) /\
  Matches (4 + fuel) (PatternStr (str "\*")) (str "x") = Ret (true, None).
Proof.
  split; [eexists; split; reflexivity|]. split; reflexivity.
Qed.

(** Whenever the bytes after the first code point equal the literal
    tail, not empty, the single-character wildcard scanner fails. *)
Lemma consumeOnePreceding_rejects_tail (fuel : nat) (s sub : gostring)
      (r : rune) (size : Z) (err : option error) :
  strings.ReadRune s = (r, size, err) ->
  sub <> [] ->
  slice s size (size + len sub) = Ret sub ->
  consumeOnePreceding fuel s sub = Ret (false, s, 0).
Proof.
  intros Hr Hne Hs. unfold consumeOnePreceding.
  destruct (len s <? 1); [reflexivity|]. rewrite Hr.
  destruct (negb (is_err err) && (len s - size <? len sub)); [reflexivity|].
  destruct (is_err err); [reflexivity|].
  destruct (len s <? len sub + 1); [reflexivity|].
  destruct (len sub =? 0) eqn:E.
  { apply Z.eqb_eq, len_zero in E. contradiction. }
  rewrite Hs. cbn [bind]. now rewrite bytes_eqb_refl.
Qed.

(** C3 (the code departs from it).  The comparison of the
    single-character wildcard scanner is inverted: on [ab] with tail [b],
    one code point followed by the tail, it fails; on [ax] with tail [b]
    it succeeds and consumes both bytes. *)
Theorem consumeOnePreceding_inverted (fuel : nat) :
  consumeOnePreceding fuel (str "ab") (str "b") = Ret (false, str "ab", 0) /\
  consumeOnePreceding fuel (str "ax") (str "b") = Ret (true, [], 2).
Proof.
  split; [|reflexivity].
  now apply (consumeOnePreceding_rejects_tail fuel (str "ab") (str "b") 97 1 None).
Qed.

(** C4 (the code departs from it).  On the input [abab] with tail [ab]
    the tail first occurs past byte 0 at byte 2 (not at byte 1), so the
    scan should return the empty rest and 4 bytes consumed; the code
    returns the rest [b] and 3.  On [aa] with tail [a], which occurs at
    byte 1, the scan returns nothing at all. *)
Theorem consumeAllPreceding_miscounts (fuel : nat) :
  strings.HasPrefix (skipn 1 (str "abab")) (str "ab") = false /\
  strings.HasPrefix (skipn 2 (str "abab")) (str "ab") = true /\
  consumeAllPreceding (2 + fuel)%nat (str "abab") (str "ab") = Ret (true, str "b", 3) /\
  strings.HasPrefix (skipn 1 (str "aa")) (str "a") = true /\
  consumeAllPreceding fuel (str "aa") (str "a") = Timeout.
Proof.
  repeat split; try reflexivity.
  now apply consumeAllPreceding_diverges.
Qed.

(** After a [globMany] step whose tail would start at the current
    index, backslashes only move that start along, and the next wildcard
    is rejected as if it stood right after the asterisk. *)
Lemma compile_loop_backslashes_then_wildcard (pat : gostring) (c : byte) (v : gostring)
      (m : nat) :
  c = "*"%byte \/ c = "?"%byte ->
  forall i,
    compile_loop pat [mkScanner consumeAllPreceding globMany [] i]
                 (range_from (repeat "\"%byte m ++ c :: v) i 0)
    = Ret (Fail ErrInvalidGlobSequence).
Proof.
  intros Hc. induction m as [|m IH]; intros i; cbn [repeat app range_from].
  - assert (Hd : utf8.DecodeRuneInString (c :: v) = (byteZ c, 1))
      by (destruct Hc as [-> | ->]; reflexivity).
    rewrite Hd. cbn [compile_loop]. unfold compile_step.
    assert (Hk : exists fn k, classify i (byteZ c) = Some (fn, -1, k) /\
                              globKind_eqb k globOne || globKind_eqb k globMany = true)
      by (destruct Hc as [-> | ->]; eexists; eexists; split; reflexivity).
    destruct Hk as (fn & k & -> & Hk). change (0 <? len [_]) with true. cbv iota.
    change (index [?x] (len [?x] - 1)) with (Ret x). cbn [bind kind start globKind_eqb].
    now rewrite Hk, Z.eqb_refl.
  - change (utf8.DecodeRuneInString ("\"%byte :: ?r)) with (backslash, 1).
    cbn [compile_loop]. unfold compile_step at 1.
    change (classify i backslash) with (Some (consumeSubstring, -1, globString)).
    change (0 <? len [_]) with true. cbv iota.
    change (index [?x] (len [?x] - 1)) with (Ret x).
    cbn [bind kind start substr globKind_eqb orb andb].
    change (backslash =? backslash) with true. change (len [] =? 0) with true.
    cbn [andb set_last set_start scanner kind substr start bind].
    change (utf8.RuneLen backslash) with 1. change (Z.to_nat (1 - 1)) with 0%nat.
    apply IH.
Qed.

(** An asterisk, any number of backslashes, then a wildcard: the
    pattern is rejected, whatever follows. *)
Lemma star_backslashes_wildcard_rejected (c : byte) (v : gostring) (m : nat) :
  c = "*"%byte \/ c = "?"%byte ->
  NewPattern ("*"%byte :: repeat "\"%byte m ++ c :: v)
  = Ret (None, Some ErrInvalidGlobSequence).
Proof.
  intros Hc. unfold NewPattern, compileGlobPattern, range_string.
  cbn [range_from]. change (utf8.DecodeRuneInString ("*"%byte :: ?r)) with (asterisk, 1).
  cbn [compile_loop]. unfold compile_step at 1.
  change (classify 0 asterisk) with (Some (consumeAllPreceding, -1, globMany)).
  change (0 <? len []) with false. cbv iota beta. cbn [bind app].
  change (-1 =? -1) with true. cbv iota. change (0 + utf8.RuneLen asterisk) with (0 + 1).
  change (Z.to_nat (1 - 1)) with 0%nat.
  now rewrite (compile_loop_backslashes_then_wildcard _ c v m Hc).
Qed.

(** C7 (the code departs from it).  The two patterns named by the claim
    are rejected; but so is a wildcard that an escaped backslash
    separates from the asterisk, and so is an escaped question mark
    after an asterisk, and in general any wildcard that only backslashes
    separate from an asterisk: the backslash only moves the start of the
    previous step's tail. *)
Theorem InvalidGlobSequence_examples :
  NewPattern (str "a**b") = Ret (None, Some ErrInvalidGlobSequence) /\
  NewPattern (str "a*?b") = Ret (None, Some ErrInvalidGlobSequence) /\
  NewPattern (str "*\\*") = Ret (None, Some ErrInvalidGlobSequence) /\
  NewPattern (str "*\?") = Ret (None, Some ErrInvalidGlobSequence) /\
  (forall (m : nat) (v : gostring),
      NewPattern ("*"%byte :: repeat "\"%byte m ++ "*"%byte :: v)
      = Ret (None, Some ErrInvalidGlobSequence)) /\
  (forall (m : nat) (v : gostring),
      NewPattern ("*"%byte :: repeat "\"%byte m ++ "?"%byte :: v)
      = Ret (None, Some ErrInvalidGlobSequence)).
Proof.
  repeat split; try reflexivity; intros m v;
    apply star_backslashes_wildcard_rejected; auto.
Qed.

(** C8.  When [NewPattern] succeeds the step sequence is not empty and
    ends with the End step, and [NewPattern] never returns
    [ErrPatternInvalid] nor [ErrPatternEmpty]. *)
Theorem NewPattern_steps_end_with_End (pat : gostring) :
  (forall g e, NewPattern pat = Ret (Some g, e) ->
     steps g <> [] /\ last (steps g) (End_step []) = End_step pat) /\
  (forall g, NewPattern pat <> Ret (g, Some ErrPatternInvalid)) /\
  (forall g, NewPattern pat <> Ret (g, Some ErrPatternEmpty)).
Proof.
  split.
  - intros g e H. apply NewPattern_Some in H. destruct H as (_ & _ & ws & ->).
    split; [|apply last_last].
    intros H. symmetry in H. now apply app_cons_not_nil in H.
  - split; intros g H; apply NewPattern_error in H; destruct H; discriminate.
Qed.

Lemma NewPattern_steps_end_with_End_witness :
  steps star_a <> [] /\ last (steps star_a) (End_step []) = End_step (str "*a").
Proof.
  apply (proj1 (NewPattern_steps_end_with_End (str "*a")) star_a None).
  reflexivity.
Defined.

Lemma Matches_empty_pattern (fuel : nat) (s : gostring) :
  GlobPattern_Matches (2 + fuel) empty_pattern s = Ret (bytes_eqb [] s).
Proof. destruct s; reflexivity. Qed.

(** C10.  The empty pattern compiles, to the End step alone, and the
    compiled pattern matches exactly the empty candidate. *)
Theorem empty_pattern_matches_only_empty :
  NewPattern [] = Ret (Some empty_pattern, None) /\
  steps empty_pattern = [End_step []] /\
  forall (fuel : nat) (s : gostring),
    exists b, GlobPattern_Matches (2 + fuel) empty_pattern s = Ret b /\
              (b = true <-> s = []).
Proof.
  split; [reflexivity|]. split; [reflexivity|].
  intros fuel s. exists (bytes_eqb [] s). split; [apply Matches_empty_pattern|].
  rewrite bytes_eqb_eq. split; congruence.
Qed.

(** ** The pattern surface *)




(** ** Code points below [utf8.RuneSelf] are single bytes *)

Lemma lor_lower_l (a b : Z) : 0 <= b -> a <= Z.lor a b.
Proof.
  intros Hb. pose proof (Zbitwise.Z.sub_lor_l_same_l b a) as H.
  assert (0 <= Z.land b (Z.lnot a)) by (apply Z.land_nonneg; now left).
  lia.
Qed.

Lemma lor_lower_r (a b : Z) : 0 <= a -> b <= Z.lor a b.
Proof. intros Ha. rewrite Z.lor_comm. now apply lor_lower_l. Qed.

Lemma land_mask_nonneg (x : Z) (n : Z) : 0 <= n -> 0 <= Z.land x (Z.ones n).
Proof.
  intros Hn. rewrite Z.land_ones by assumption.
  now apply Z.mod_pos_bound, Z.pow_pos_nonneg.
Qed.

Lemma shifted_mask_nonneg (x n k : Z) : 0 <= n -> 0 <= Z.shiftl (Z.land x (Z.ones n)) k.
Proof. intros Hn. apply Z.shiftl_nonneg. now apply land_mask_nonneg. Qed.

Lemma first_Some (s0 sz lo hi : Z) :
  utf8.first s0 = Some (sz, lo, hi) ->
  hi <= 0xBF /\
  ((sz = 2 /\ 0xC2 <= s0 <= 0xDF) \/
  (sz = 3 /\ 0xE0 <= s0 <= 0xEF /\ (s0 = 0xE0 -> lo = 0xA0)) \/
  (sz = 4 /\ 0xF0 <= s0 <= 0xF4 /\ (s0 = 0xF0 -> lo = 0x90))).
Proof.
  unfold utf8.first.
  repeat match goal with
         | |- context [if ?c then _ else _] => destruct c eqn:?
         end;
    intros H; try discriminate; injection H as <- <- <-;
    rewrite ?Z.ltb_lt, ?Z.ltb_ge, ?Z.leb_le, ?Z.leb_gt, ?Z.eqb_eq, ?Z.eqb_neq in *;
    lia.
Qed.

Lemma in_range_true (lo hi : Z) (b : byte) :
  negb (utf8.in_range lo hi b) = false -> lo <= byteZ b <= hi.
Proof.
  unfold utf8.in_range. rewrite negb_false_iff, andb_true_iff, !Z.leb_le. tauto.
Qed.

(** The value decoded from a sequence of two bytes or more. *)
Lemma two_bytes_above (s0 s1 : Z) :
  0xC2 <= s0 <= 0xDF ->
  utf8.RuneSelf <= Z.lor (Z.shiftl (Z.land s0 0x1F) 6) (Z.land s1 0x3F).
Proof.
  intros H0. change 0x1F with (Z.ones 5). change 0x3F with (Z.ones 6).
  etransitivity; [|apply lor_lower_l, land_mask_nonneg; lia].
  rewrite Z.land_ones, Z.shiftl_mul_pow2 by lia. unfold utf8.RuneSelf.
  change (2 ^ 5) with 32. change (2 ^ 6) with 64.
  Z.to_euclidean_division_equations; lia.
Qed.

Lemma three_bytes_above (s0 s1 s2 lo : Z) :
  0xE0 <= s0 <= 0xEF -> (s0 = 0xE0 -> lo = 0xA0) -> lo <= s1 <= 0xBF ->
  utf8.RuneSelf <= Z.lor (Z.lor (Z.shiftl (Z.land s0 0x0F) 12)
                           (Z.shiftl (Z.land s1 0x3F) 6))
                    (Z.land s2 0x3F).
Proof.
  intros H0 Hlo H1. change 0x0F with (Z.ones 4). change 0x3F with (Z.ones 6).
  etransitivity; [|apply lor_lower_l, land_mask_nonneg; lia].
  assert (s0 = 0xE0 \/ 0xE1 <= s0) as [E|E] by lia.
  - etransitivity; [|apply lor_lower_r, shifted_mask_nonneg; lia].
    rewrite Z.land_ones, Z.shiftl_mul_pow2 by lia. unfold utf8.RuneSelf.
    change (2 ^ 6) with 64. specialize (Hlo E).
    Z.to_euclidean_division_equations; lia.
  - etransitivity; [|apply lor_lower_l, shifted_mask_nonneg; lia].
    rewrite Z.land_ones, Z.shiftl_mul_pow2 by lia. unfold utf8.RuneSelf.
    change (2 ^ 4) with 16. change (2 ^ 12) with 4096.
    Z.to_euclidean_division_equations; lia.
Qed.

Lemma four_bytes_above (s0 s1 s2 s3 lo : Z) :
  0xF0 <= s0 <= 0xF4 -> (s0 = 0xF0 -> lo = 0x90) -> lo <= s1 <= 0xBF ->
  utf8.RuneSelf <= Z.lor (Z.lor (Z.lor (Z.shiftl (Z.land s0 0x07) 18)
                                  (Z.shiftl (Z.land s1 0x3F) 12))
                           (Z.shiftl (Z.land s2 0x3F) 6))
                    (Z.land s3 0x3F).
Proof.
  intros H0 Hlo H1. change 0x07 with (Z.ones 3). change 0x3F with (Z.ones 6).
  etransitivity; [|apply lor_lower_l, land_mask_nonneg; lia].
  etransitivity; [|apply lor_lower_l, shifted_mask_nonneg; lia].
  assert (s0 = 0xF0 \/ 0xF1 <= s0) as [E|E] by lia.
  - etransitivity; [|apply lor_lower_r, shifted_mask_nonneg; lia].
    rewrite Z.land_ones, Z.shiftl_mul_pow2 by lia. unfold utf8.RuneSelf.
    change (2 ^ 6) with 64. change (2 ^ 12) with 4096. specialize (Hlo E).
    Z.to_euclidean_division_equations; lia.
  - etransitivity; [|apply lor_lower_l, shifted_mask_nonneg; lia].
    rewrite Z.land_ones, Z.shiftl_mul_pow2 by lia. unfold utf8.RuneSelf.
    change (2 ^ 3) with 8. change (2 ^ 18) with 262144.
    Z.to_euclidean_division_equations; lia.
Qed.

(** A decoded code point below [utf8.RuneSelf] is the first byte itself. *)
Lemma DecodeRuneInString_below_RuneSelf (s : gostring) (code size : Z) :
  utf8.DecodeRuneInString s = (code, size) ->
  code < utf8.RuneSelf ->
  exists b t, s = b :: t /\ code = byteZ b.
Proof.
  assert (HE : ~ utf8.RuneError < utf8.RuneSelf) by (unfold utf8.RuneError, utf8.RuneSelf; lia).
  unfold utf8.DecodeRuneInString.
  destruct s as [|b0 t]; [intros H; injection H as <- <-; contradiction|].
  destruct (byteZ b0 <? utf8.RuneSelf) eqn:E0;
    [intros H; injection H as <- <-; intros _; now exists b0, t|].
  destruct (utf8.first (byteZ b0)) as [[[sz lo] hi]|] eqn:F;
    [|intros H; injection H as <- <-; contradiction].
  apply first_Some in F. destruct F as [Hhi F].
  destruct t as [|b1 t1]; [intros H; injection H as <- <-; contradiction|].
  destruct (negb (utf8.in_range lo hi b1)) eqn:R1;
    [intros H; injection H as <- <-; contradiction|].
  apply in_range_true in R1.
  destruct (sz <=? 2) eqn:S2.
  { intros H; injection H as <- <-. apply Z.leb_le in S2.
    destruct F as [[_ F]|[[-> _]|[-> _]]]; try lia.
    intros Hlt. exfalso.
    exact (proj1 (Z.le_ngt _ _) (two_bytes_above (byteZ b0) (byteZ b1) F) Hlt). }
  apply Z.leb_gt in S2.
  destruct t1 as [|b2 t2]; [intros H; injection H as <- <-; contradiction|].
  destruct (negb (utf8.in_range 128 191 b2)) eqn:R2;
    [intros H; injection H as <- <-; contradiction|].
  destruct (sz <=? 3) eqn:S3.
  { intros H; injection H as <- <-. apply Z.leb_le in S3.
    destruct F as [[-> _]|[[_ [F Hlo]]|[-> _]]]; try lia.
    intros Hlt. exfalso. assert (R1' : lo <= byteZ b1 <= 0xBF) by lia.
    exact (proj1 (Z.le_ngt _ _)
                 (three_bytes_above (byteZ b0) (byteZ b1) (byteZ b2) lo F Hlo R1') Hlt). }
  apply Z.leb_gt in S3.
  destruct t2 as [|b3 t3]; [intros H; injection H as <- <-; contradiction|].
  destruct (negb (utf8.in_range 128 191 b3)) eqn:R3;
    [intros H; injection H as <- <-; contradiction|].
  intros H; injection H as <- <-.
  destruct F as [[-> _]|[[-> _]|[_ [F Hlo]]]]; try lia.
  intros Hlt. exfalso. assert (R1' : lo <= byteZ b1 <= 0xBF) by lia.
  exact (proj1 (Z.le_ngt _ _)
               (four_bytes_above (byteZ b0) (byteZ b1) (byteZ b2) (byteZ b3) lo F Hlo R1')
               Hlt).
Qed.

(** ** Patterns without special characters *)

Lemma plain_no_special (p : gostring) : plain p = true -> no_special p.
Proof.
  unfold plain. rewrite forallb_forall. intros H.
  repeat split; intros Hin; apply H in Hin; discriminate.
Qed.

Lemma byteZ_inj (a b : byte) : byteZ a = byteZ b -> a = b.
Proof.
  unfold byteZ. intros H. apply N2Z.inj in H.
  pose proof (Byte.of_to_N a) as Ha. rewrite H, Byte.of_to_N in Ha. congruence.
Qed.

Lemma range_from_In (s : gostring) :
  forall i skip idx code,
    In (idx, code) (range_from s i skip) ->
    i <= idx /\ (code < utf8.RuneSelf -> exists b, In b s /\ code = byteZ b).
Proof.
  induction s as [|a s IH]; intros i skip idx code; cbn [range_from]; [contradiction|].
  destruct skip as [|k].
  - destruct (utf8.DecodeRuneInString (a :: s)) as [c sz] eqn:D. intros [H|H].
    + injection H as <- <-. split; [lia|]. intros Hc.
      destruct (DecodeRuneInString_below_RuneSelf _ _ _ D Hc) as (b & t & E & ->).
      injection E as <- <-. exists a. split; [now left | reflexivity].
    + apply IH in H. destruct H as [Hi Hc]. split; [lia|].
      intros Hlt. destruct (Hc Hlt) as (b & Hb & ->). exists b. split; [now right | reflexivity].
  - intros H. apply IH in H. destruct H as [Hi Hc]. split; [lia|].
    intros Hlt. destruct (Hc Hlt) as (b & Hb & ->). exists b. split; [now right | reflexivity].
Qed.

(** The code points of a plain pattern are not special either. *)
Lemma plain_codes (p : gostring) (i : Z) (skip : nat) (idx : Z) (code : rune) :
  no_special p -> In (idx, code) (range_from p i skip) ->
  code <> backslash /\ code <> asterisk /\ code <> question.
Proof.
  intros (Hb & Ha & Hq) H. apply range_from_In in H. destruct H as [_ H].
  repeat split; intros ->; destruct H as (b & Hin & E);
    try (unfold utf8.RuneSelf, backslash, asterisk, question; lia).
  - apply Hb. replace "\"%byte with b; [assumption|]. now apply byteZ_inj.
  - apply Ha. replace "*"%byte with b; [assumption|]. now apply byteZ_inj.
  - apply Hq. replace "?"%byte with b; [assumption|]. now apply byteZ_inj.
Qed.

Lemma classify_plain (idx : Z) (code : rune) :
  code <> backslash -> code <> asterisk -> code <> question ->
  classify idx code =
  if idx =? 0 then Some (consumeSubstring, idx, globString) else None.
Proof.
  intros Hb Ha Hq. unfold classify.
  apply Z.eqb_neq in Hb, Ha, Hq. now rewrite Hb, Ha, Hq.
Qed.

(** Past index 0 the loop body does nothing on a plain code point. *)
Lemma compile_loop_plain (pat : gostring) (ws : list globScanner) (rs : list (Z * rune)) :
  (forall idx code, In (idx, code) rs ->
     1 <= idx /\ code <> backslash /\ code <> asterisk /\ code <> question) ->
  compile_loop pat ws rs = Ret (Next ws).
Proof.
  induction rs as [|[idx code] rs IH]; intros H; cbn [compile_loop]; [reflexivity|].
  destruct (H idx code (or_introl eq_refl)) as (Hi & Hb & Ha & Hq).
  unfold compile_step. rewrite (classify_plain _ _ Hb Ha Hq).
  destruct (idx =? 0) eqn:E; [apply Z.eqb_eq in E; lia|]. cbn [bind].
  apply IH. intros idx' code' Hin. apply H. now right.
Qed.

Lemma plain_tail (b : byte) (t : gostring) : no_special (b :: t) -> no_special t.
Proof.
  intros (H1 & H2 & H3). repeat split; intros H; [apply H1|apply H2|apply H3]; now right.
Qed.

Lemma compileGlobPattern_plain (b : byte) (t : gostring) :
  no_special (b :: t) ->
  compileGlobPattern (b :: t) = Ret (Some (literal_steps (b :: t)), None).
Proof.
  intros Hp. unfold compileGlobPattern, range_string.
  assert (Hhd : exists c sz, range_from (b :: t) 0 0
                             = (0, c) :: range_from t (0 + 1) (Z.to_nat (sz - 1))).
  { cbn [range_from]. destruct (utf8.DecodeRuneInString (b :: t)) as [c sz]. now exists c, sz. }
  destruct Hhd as (c & sz & Hhd).
  destruct (plain_codes (b :: t) 0 0 0 c Hp) as (Hb & Ha & Hq);
    [rewrite Hhd; now left|].
  rewrite Hhd. cbn [compile_loop]. unfold compile_step at 1.
  rewrite (classify_plain _ _ Hb Ha Hq). change (0 =? 0) with true. cbv iota beta.
  change (0 <? len []) with false. cbv iota. change (0 =? -1) with false. cbv iota.
  cbn [bind app]. rewrite compile_loop_plain.
  - cbn [bind]. change (0 <? len [_]) with true. cbv iota.
    change (index [?x] (len [?x] - 1)) with (Ret x). cbn [bind start].
    rewrite slice_from_0. reflexivity.
  - intros idx code H. pose proof (plain_codes t _ _ _ _ (plain_tail _ _ Hp) H).
    apply range_from_In in H. split; [lia | assumption].
Qed.

(** The literal scanner succeeds exactly on the inputs that begin with
    the tail, and then returns what follows it. *)
Lemma consumeSubstring_spec (fuel : nat) (s p : gostring) :
  p <> [] ->
  (exists u, s = p ++ u /\ consumeSubstring fuel s p = Ret (true, u, len p)) \/
  ((forall u, s <> p ++ u) /\ consumeSubstring fuel s p = Ret (false, s, 0)).
Proof.
  intros Hne. unfold consumeSubstring. pose proof (len_nonneg p) as Hp.
  destruct (len s <? len p) eqn:E.
  { right. split; [|reflexivity]. intros u ->. rewrite len_app in E.
    apply Z.ltb_lt in E. pose proof (len_nonneg u). lia. }
  apply Z.ltb_ge in E.
  destruct (len p =? 0) eqn:E0; [apply Z.eqb_eq, len_zero in E0; contradiction|].
  rewrite slice_to_ok by lia. cbn [bind].
  assert (Hn : Z.to_nat (len p) = List.length p) by (unfold len; apply Nat2Z.id).
  rewrite Hn.
  destruct (bytes_eqb (firstn (List.length p) s) p) eqn:B; cbn [negb].
  - left. apply bytes_eqb_eq in B. exists (skipn (List.length p) s). split.
    + rewrite <- B at 1. now rewrite firstn_skipn.
    + rewrite slice_from_ok by lia. now rewrite Hn.
  - right. split; [|reflexivity]. intros u ->.
    rewrite firstn_app, Nat.sub_diag, firstn_all in B. cbn [firstn] in B.
    rewrite app_nil_r, bytes_eqb_refl in B. discriminate.
Qed.

(** One turn of the matcher's loop on a step that is not a wildcard,
    before any [globMany] step has been met. *)
Lemma Matches_body_before_many (fuel : nat) (ss : list globScanner) (c : cursor)
      (test : globScanner) (m : bool) (s' : gostring) (n : Z) :
  index ss (stepIndex c) = Ret test ->
  kind test <> globMany ->
  firstMany c = -1 ->
  scanner test fuel (rest c) (substr test) = Ret (m, s', n) ->
  Matches_body fuel ss c =
  Ret (if m
       then Continue (mkCursor (stepIndex c + 1) s' m n (-1) (firstManySubstr c) false)
       else Return false).
Proof.
  intros Hi Hk Hf Hs. unfold Matches_body. rewrite Hi. cbn [bind].
  assert (Hr : record_many test c = c).
  { unfold record_many. destruct (kind test); try contradiction;
      cbn [globKind_eqb]; now rewrite andb_false_r. }
  rewrite Hr. unfold scan. rewrite Hs. cbn [bind].
  assert (Hne : (firstMany c =? stepIndex c) = false).
  { unfold index in Hi. destruct (0 <=? stepIndex c) eqn:E; [|discriminate].
    apply Z.leb_le in E. apply Z.eqb_neq. lia. }
  rewrite Hne, andb_false_r. unfold advance.
  cbn [matches firstMany stepIndex wasReset firstManySubstr rest bytesConsumed].
  destruct m; cbn [negb]; [now rewrite Hf|].
  rewrite Hf. reflexivity.
Qed.

Lemma Matches_literal_steps (fuel : nat) (p s : gostring) :
  p <> [] ->
  Matches_loop (3 + fuel) (literal_steps p) (initial s) = Ret (bytes_eqb p s).
Proof.
  intros Hne. change (3 + fuel)%nat with (S (S (S fuel))).
  cbn [Matches_loop]. change (stepIndex (initial s) <? len (literal_steps p)) with true.
  cbv iota.
  destruct (consumeSubstring_spec (S (S fuel)) s p Hne) as [(u & -> & Hs)|[Hno Hs]].
  - rewrite (Matches_body_before_many (S (S fuel)) (literal_steps p) (initial (p ++ u))
               (mkScanner consumeSubstring globString p 0) true u (len p) eq_refl
               ltac:(discriminate) eq_refl Hs).
    cbn [bind initial stepIndex firstManySubstr].
    change (0 + 1 <? len (literal_steps p)) with true. cbv iota.
    rewrite (Matches_body_before_many (S fuel) (literal_steps p)
               (mkCursor (0 + 1) u true (len p) (-1) (p ++ u) false)
               (End_step p) ((len u =? 0) && true) u 0 eq_refl
               ltac:(discriminate) eq_refl eq_refl).
    destruct u as [|x u].
    + cbn [bind len List.length Z.of_nat Z.eqb andb stepIndex rest].
      rewrite app_nil_r, bytes_eqb_refl. reflexivity.
    + replace (len (x :: u) =? 0) with false
        by (symmetry; apply Z.eqb_neq; rewrite len_cons; pose proof (len_nonneg u); lia).
      cbn [bind andb]. f_equal. symmetry. apply not_true_is_false.
      rewrite bytes_eqb_eq. intros H. apply (f_equal (@List.length byte)) in H.
      rewrite length_app in H. cbn [List.length] in H. lia.
  - rewrite (Matches_body_before_many (S (S fuel)) (literal_steps p) (initial s)
               (mkScanner consumeSubstring globString p 0) false s 0 eq_refl
               ltac:(discriminate) eq_refl Hs).
    cbn [bind]. f_equal. symmetry. apply not_true_is_false. rewrite bytes_eqb_eq.
    intros ->. apply (Hno []). now rewrite app_nil_r.
Qed.

(** C6, as stated, fails: the pattern backslash-a holds no wildcard
    character, yet it matches the candidate [a], which it differs from,
    and does not match itself. *)
Lemma backslash_pattern_is_not_matched_literally :
  ~ In "*"%byte (str "\a") /\ ~ In "?"%byte (str "\a") /\
  str "\a" <> str "a" /\
  Matches 3 (PatternStr (str "\a")) (str "a") = Ret (true, None) /\
  Matches 3 (PatternStr (str "\a")) (str "\a") = Ret (false, None).
Proof.
  repeat split; try discriminate; intros [H|[H|[]]]; discriminate.
Qed.

(** C6, amended.  A pattern with no wildcard character and no backslash
    compiles, when not empty, to one literal step and the End step, and
    matches a candidate exactly when the candidate equals the pattern. *)
Theorem plain_pattern_matches_itself_only (fuel : nat) (p s : gostring) :
  plain p = true ->
  (p <> [] -> NewPattern p = Ret (Some (mkGlobPattern p (literal_steps p)), None)) /\
  exists b, Matches (3 + fuel) (PatternStr p) s = Ret (b, None) /\
            (b = true <-> p = s).
Proof.
  intros Hp. apply plain_no_special in Hp.
  assert (Hc : p <> [] ->
               NewPattern p = Ret (Some (mkGlobPattern p (literal_steps p)), None)).
  { destruct p as [|b t]; [congruence|]. intros _. unfold NewPattern.
    now rewrite compileGlobPattern_plain. }
  split; [exact Hc|]. exists (bytes_eqb p s). split; [|apply bytes_eqb_eq].
  unfold Matches, compiled. destruct p as [|b t].
  - change (NewPattern []) with (Ret (Some empty_pattern, @None error)).
    cbn [bind is_err matcher_Matches].
    now rewrite (Matches_empty_pattern (S fuel)).
  - rewrite Hc by discriminate. cbn [bind is_err matcher_Matches].
    unfold GlobPattern_Matches. cbn [steps].
    rewrite Matches_literal_steps by discriminate. reflexivity.
Qed.

Lemma plain_pattern_matches_itself_only_witness :
  (str "main.go" <> [] ->
   NewPattern (str "main.go")
   = Ret (Some (mkGlobPattern (str "main.go") (literal_steps (str "main.go"))), None)) /\
  exists b, Matches (3 + 0) (PatternStr (str "main.go")) (str "main.c") = Ret (b, None) /\
            (b = true <-> str "main.go" = str "main.c").
Proof.
  apply (plain_pattern_matches_itself_only 0 (str "main.go") (str "main.c")).
  reflexivity.
Defined.

(** ** Backtracking *)

Lemma index_bounds {A : Type} (xs : list A) (i : Z) (x : A) :
  index xs i = Ret x -> 0 <= i < len xs.
Proof.
  unfold index. destruct ((0 <=? i) && (i <? len xs)) eqn:E; [|discriminate].
  apply andb_true_iff in E. rewrite Z.leb_le, Z.ltb_lt in E. tauto.
Qed.

Lemma first_many_bounds (ss : list globScanner) (i : Z) :
  first_many ss i -> 0 <= i < len ss.
Proof. intros [(t & H & _) _]. now apply index_bounds in H. Qed.

Lemma record_many_fields (test : globScanner) (c : cursor) :
  stepIndex (record_many test c) = stepIndex c /\
  rest (record_many test c) = rest c /\
  wasReset (record_many test c) = wasReset c.
Proof. unfold record_many. destruct (_ && _); repeat split. Qed.

Lemma record_many_inv (ss : list globScanner) (c : cursor) (test : globScanner) :
  checkpoint_inv ss c ->
  index ss (stepIndex c) = Ret test ->
  (firstMany (record_many test c) = -1 /\ no_many_before ss (stepIndex c + 1)) \/
  (first_many ss (firstMany (record_many test c)) /\
   firstMany (record_many test c) <= stepIndex c).
Proof.
  intros [H0 Hinv] Hi. unfold record_many.
  destruct (globKind_eqb (kind test) globMany) eqn:K.
  - assert (Hk : kind test = globMany) by (destruct (kind test); now try discriminate).
    destruct Hinv as [[Hf Hno]|[Hfm Hle]].
    + rewrite Hf. change (-1 =? -1) with true. cbn [orb andb firstMany]. right.
      split; [|lia].
      split; [now exists test | assumption].
    + destruct (firstMany c =? -1) eqn:E1.
      { apply Z.eqb_eq in E1. apply first_many_bounds in Hfm. lia. }
      destruct (firstMany c =? stepIndex c) eqn:E2; cbn [orb andb firstMany].
      * apply Z.eqb_eq in E2. rewrite <- E2. right. split; [assumption | lia].
      * right. now split.
  - rewrite andb_false_r. destruct Hinv as [[Hf Hno]|[Hfm Hle]]; [left | now right].
    split; [assumption|]. intros j t Hj Hij.
    assert (j < stepIndex c \/ j = stepIndex c) as [Hlt| ->] by lia.
    + apply (Hno j t); [lia | assumption].
    + rewrite Hi in Hij. injection Hij as <-. intros Hk. now rewrite Hk in K.
Qed.

(** A scan leaves the step index, the first [globMany] index and the
    reset flag as they were, and the checkpoint too unless it matched. *)
Lemma scan_fields (fuel : nat) (test : globScanner) (c c1 : cursor) :
  scan fuel test c = Ret c1 ->
  stepIndex c1 = stepIndex c /\ firstMany c1 = firstMany c /\
  wasReset c1 = wasReset c /\
  (matches c1 = false -> firstManySubstr c1 = firstManySubstr c) /\
  exists s' n, scanner test fuel (rest c) (substr test) = Ret (matches c1, s', n).
Proof.
  unfold scan.
  destruct (scanner test fuel (rest c) (substr test)) as [[[m s'] n]| |];
    cbn [bind]; try discriminate.
  destruct (m && (firstMany c =? stepIndex c)) eqn:E.
  - destruct (slice_from (firstManySubstr c) (n - len (substr test))) as [fms| |];
      cbn [bind]; try discriminate.
    intros H; injection H as <-. cbn. repeat split; [|now exists s', n].
    intros ->. discriminate.
  - intros H; injection H as <-. cbn. repeat split. now exists s', n.
Qed.

Lemma Matches_body_inv (fuel : nat) (ss : list globScanner) (c c' : cursor) :
  checkpoint_inv ss c ->
  Matches_body fuel ss c = Ret (Continue c') ->
  checkpoint_inv ss c'.
Proof.
  intros Hinv. unfold Matches_body.
  destruct (index ss (stepIndex c)) as [test| |] eqn:Hi; cbn [bind]; try discriminate.
  pose proof (record_many_inv ss c test Hinv Hi) as Hrec.
  destruct (record_many_fields test c) as (Hs0 & _ & _).
  destruct (scan fuel test (record_many test c)) as [c1| |] eqn:Hsc;
    cbn [bind]; try discriminate.
  apply scan_fields in Hsc. destruct Hsc as (Hs1 & Hf1 & _ & _ & _).
  rewrite Hs0 in Hs1. rewrite <- Hf1 in Hrec. destruct Hinv as [H0 _].
  unfold advance. destruct (negb (matches c1)).
  - destruct (firstMany c1 =? -1) eqn:E; cbn [orb]; [discriminate|].
    destruct (_ || _); [discriminate|].
    destruct (slice_from (firstManySubstr c1) 1) as [tl| |]; cbn [bind]; try discriminate.
    intros H; injection H as <-. apply Z.eqb_neq in E.
    destruct Hrec as [[Hr _]|[Hr _]]; [contradiction|].
    pose proof (first_many_bounds _ _ Hr). split; cbn; [lia|]. right. split; [assumption|lia].
  - intros H; injection H as <-. split; cbn; [lia|]. rewrite Hs1.
    destruct Hrec as [Hr|[Hr Hle]]; [now left | right]. split; [assumption|lia].
Qed.

Lemma reachable_inv (ss : list globScanner) (s : gostring) (c : cursor) :
  reachable ss s c -> checkpoint_inv ss c.
Proof.
  induction 1 as [|fuel c c' _ IH _ Hb].
  - split; cbn; [lia|]. left. split; [reflexivity|]. intros j t Hj. lia.
  - exact (Matches_body_inv fuel ss c c' IH Hb).
Qed.


Lemma NewPattern_star_ab :
  NewPattern (str "*ab") = Ret (Some (mkGlobPattern (str "*ab") star_ab), None).
Proof. reflexivity. Qed.


(** * Further properties of the package *)

(** ** The contract of the scanners *)

(** A code point decoded from a string that is not empty takes one byte
    at least and no more bytes than the string has. *)
Lemma DecodeRuneInString_size (b : byte) (t : gostring) (c size : Z) :
  utf8.DecodeRuneInString (b :: t) = (c, size) -> 1 <= size <= len (b :: t).
Proof.
  unfold utf8.DecodeRuneInString.
  assert (H1 : 1 <= 1 <= len (b :: t))
    by (rewrite len_cons; pose proof (len_nonneg t); lia).
  destruct (byteZ b <? utf8.RuneSelf); [intros H; now injection H as <- <-|].
  destruct (utf8.first (byteZ b)) as [[[sz lo] hi]|];
    [|intros H; now injection H as <- <-].
  destruct t as [|b1 t1]; [intros H; now injection H as <- <-|].
  destruct (negb (utf8.in_range lo hi b1)); [intros H; now injection H as <- <-|].
  destruct (sz <=? 2).
  { intros H; injection H as <- <-. rewrite !len_cons. pose proof (len_nonneg t1). lia. }
  destruct t1 as [|b2 t2]; [intros H; now injection H as <- <-|].
  destruct (negb (utf8.in_range 128 191 b2)); [intros H; now injection H as <- <-|].
  destruct (sz <=? 3).
  { intros H; injection H as <- <-. rewrite !len_cons. pose proof (len_nonneg t2). lia. }
  destruct t2 as [|b3 t3]; [intros H; now injection H as <- <-|].
  destruct (negb (utf8.in_range 128 191 b3)); [intros H; now injection H as <- <-|].
  intros H; injection H as <- <-. rewrite !len_cons. pose proof (len_nonneg t3). lia.
Qed.

Lemma ReadRune_size (b : byte) (t : gostring) :
  exists r size, strings.ReadRune (b :: t) = (r, size, None) /\ 1 <= size <= len (b :: t).
Proof.
  unfold strings.ReadRune. destruct (byteZ b <? utf8.RuneSelf).
  - exists (byteZ b), 1. split; [reflexivity|].
    rewrite len_cons; pose proof (len_nonneg t); lia.
  - destruct (utf8.DecodeRuneInString (b :: t)) as [c size] eqn:D.
    exists c, size. split; [reflexivity|]. now apply DecodeRuneInString_size in D.
Qed.

Lemma scan_result_ok_fail (s sub : gostring) : scan_result_ok s sub (false, s, 0).
Proof.
  unfold scan_result_ok. pose proof (len_nonneg s).
  repeat split; try lia; discriminate.
Qed.

Ltac scan_failed := eexists; split; [reflexivity | apply scan_result_ok_fail].

Lemma consumeEnd_ok (fuel : nat) (s sub : gostring) :
  exists r, consumeEnd fuel s sub = Ret r /\ scan_result_ok s sub r.
Proof.
  eexists. split; [reflexivity|]. unfold scan_result_ok. pose proof (len_nonneg s).
  repeat split; lia.
Qed.

Lemma consumeSubstring_ok (fuel : nat) (s sub : gostring) :
  exists r, consumeSubstring fuel s sub = Ret r /\ scan_result_ok s sub r.
Proof.
  unfold consumeSubstring. pose proof (len_nonneg s). pose proof (len_nonneg sub).
  destruct (len s <? len sub) eqn:E; [scan_failed|].
  apply Z.ltb_ge in E.
  destruct (len sub =? 0) eqn:E0.
  { apply Z.eqb_eq in E0. eexists. split; [reflexivity|]. unfold scan_result_ok.
    repeat split; try lia. }
  rewrite slice_to_ok by lia. cbn [bind].
  destruct (negb _); [scan_failed|].
  rewrite slice_from_ok by lia. cbn [bind]. eexists. split; [reflexivity|].
  unfold scan_result_ok. repeat split; first [lia | discriminate].
Qed.

Lemma consumeOnePreceding_ok (fuel : nat) (s sub : gostring) :
  exists r, consumeOnePreceding fuel s sub = Ret r /\ scan_result_ok s sub r.
Proof.
  unfold consumeOnePreceding. pose proof (len_nonneg sub).
  destruct (len s <? 1) eqn:E; [scan_failed|].
  destruct s as [|b t]; [discriminate|].
  destruct (ReadRune_size b t) as (r & size & -> & Hsz). cbn [is_err negb andb].
  destruct (len (b :: t) - size <? len sub) eqn:E1; [scan_failed|].
  apply Z.ltb_ge in E1.
  destruct (len (b :: t) <? len sub + 1); [scan_failed|].
  destruct (len sub =? 0) eqn:E0.
  { apply Z.eqb_eq in E0. rewrite slice_from_ok by lia. cbn [bind].
    eexists. split; [reflexivity|]. unfold scan_result_ok.
    repeat split; first [lia | discriminate]. }
  rewrite slice_ok by lia. cbn [bind].
  destruct (negb _); [|scan_failed].
  rewrite slice_from_ok by lia. cbn [bind]. eexists. split; [reflexivity|].
  unfold scan_result_ok. repeat split; first [lia | discriminate].
Qed.

(** The loop of the multi-character wildcard scanner, from any state in
    which [subIndex] is -1 or leaves room for the tail past [offset]. *)
Lemma consumeAllPreceding_loop_ok (s sub : gostring) (fuel : nat) :
  sub <> [] ->
  forall offset subIndex,
    0 <= offset ->
    subIndex = -1 \/ (0 <= subIndex /\ offset + subIndex + len sub <= len s) ->
    consumeAllPreceding_loop fuel s sub offset subIndex = Timeout \/
    exists r, consumeAllPreceding_loop fuel s sub offset subIndex = Ret r /\
              scan_result_ok s sub r.
Proof.
  intros Hne. assert (Hs : 1 <= len sub).
  { destruct sub; [contradiction|]. rewrite len_cons. pose proof (len_nonneg sub). lia. }
  induction fuel as [|fuel IH]; intros offset subIndex Ho Hi; [now left|].
  cbn [consumeAllPreceding_loop].
  destruct (subIndex =? -1) eqn:E; [right; scan_failed|].
  apply Z.eqb_neq in E. destruct Hi as [Hi|[Hi0 Hi]]; [contradiction|].
  destruct (0 <? subIndex) eqn:Ep.
  - apply Z.ltb_lt in Ep. rewrite slice_from_ok by lia. cbn [bind]. right.
    eexists. split; [reflexivity|]. unfold scan_result_ok.
    repeat split; first [lia | discriminate].
  - apply Z.ltb_ge in Ep. assert (subIndex = 0) as -> by lia.
    rewrite slice_from_ok by lia. cbn [bind]. apply IH; [lia|].
    destruct (Index_bounds (skipn (Z.to_nat (offset + 0 + 0 + 1)) s) sub) as [H|[H0 H]];
      [now left | right].
    split; [assumption|]. unfold len in H at 2. rewrite length_skipn in H.
    unfold len at 2. lia.
Qed.

Lemma consumeAllPreceding_ok (fuel : nat) (s sub : gostring) :
  consumeAllPreceding fuel s sub = Timeout \/
  exists r, consumeAllPreceding fuel s sub = Ret r /\ scan_result_ok s sub r.
Proof.
  unfold consumeAllPreceding. pose proof (len_nonneg s).
  destruct (len s =? 0) eqn:E.
  { apply Z.eqb_eq in E. right. eexists. split; [reflexivity|]. unfold scan_result_ok.
    repeat split; lia. }
  destruct (len sub =? 0) eqn:E0.
  { apply Z.eqb_eq in E0. rewrite slice_from_len. cbn [bind]. right.
    eexists. split; [reflexivity|]. unfold scan_result_ok.
    repeat split; try lia.
    unfold len. rewrite Nat2Z.id. now rewrite skipn_all. }
  apply consumeAllPreceding_loop_ok; [|lia|].
  - intros ->. discriminate.
  - destruct (Index_bounds s sub) as [Hi|Hi]; [now left | right; lia].
Qed.


Lemma scanner_of_kind_ok (k : globKind) (fuel : nat) (s sub : gostring) :
  (k = globMany /\ scanner_of_kind k fuel s sub = Timeout) \/
  exists r, scanner_of_kind k fuel s sub = Ret r /\ scan_result_ok s sub r.
Proof.
  destruct k; cbn [scanner_of_kind].
  - destruct (consumeAllPreceding_ok fuel s sub) as [H|H]; [left | right]; auto.
  - right. apply consumeOnePreceding_ok.
  - right. apply consumeSubstring_ok.
  - right. apply consumeEnd_ok.
Qed.

(** X1.  Each of the four scanners keeps the rule written above
    [scanFunc]: a scan that fails returns the input string unchanged and
    0 bytes consumed. *)
Theorem scanner_failure_returns_input
        (k : globKind) (fuel : nat) (s sub s' : gostring) (n : Z) :
  scanner_of_kind k fuel s sub = Ret (false, s', n) -> s' = s /\ n = 0.
Proof.
  intros H. destruct (scanner_of_kind_ok k fuel s sub) as [[_ E]|(r & E & Hok)];
    rewrite E in H; [discriminate|].
  injection H as ->. destruct Hok as (_ & -> & Hn & _).
  rewrite (Hn eq_refl). split; reflexivity.
Qed.

Lemma scanner_failure_returns_input_witness :
  str "ab" = str "ab" /\ 0 = 0.
Proof.
  apply (scanner_failure_returns_input globString 0 (str "ab") (str "x") (str "ab") 0).
  reflexivity.
Defined.

(** X2.  A scan that matches returns the input less its first [n]
    bytes, where [n], the count of bytes consumed it returns, is at
    least the length of the literal tail and at most that of the
    input. *)
Theorem scanner_match_consumes_prefix
        (k : globKind) (fuel : nat) (s sub s' : gostring) (n : Z) :
  scanner_of_kind k fuel s sub = Ret (true, s', n) ->
  len sub <= n <= len s /\ s = firstn (Z.to_nat n) s ++ s'.
Proof.
  intros H. destruct (scanner_of_kind_ok k fuel s sub) as [[_ E]|(r & E & Hok)];
    rewrite E in H; [discriminate|].
  injection H as ->. destruct Hok as (Hn & -> & _ & Hm).
  specialize (Hm eq_refl). split; [lia|]. now rewrite firstn_skipn.
Qed.

Lemma scanner_match_consumes_prefix_witness :
  len (str "ab") <= 3 <= len (str "xab") /\
  str "xab" = firstn (Z.to_nat 3) (str "xab") ++ [].
Proof.
  apply (scanner_match_consumes_prefix globMany 2 (str "xab") (str "ab") [] 3).
  reflexivity.
Defined.

(** X3.  No scanner ever slices its input out of range, and the three
    scanners without a loop (literal, single-character wildcard, end)
    return a result on every input. *)
Theorem scanners_never_panic (k : globKind) (fuel : nat) (s sub : gostring) :
  scanner_of_kind k fuel s sub <> Panic /\
  (k <> globMany -> exists r, scanner_of_kind k fuel s sub = Ret r).
Proof.
  destruct (scanner_of_kind_ok k fuel s sub) as [[-> E]|(r & E & _)]; rewrite E.
  - split; [discriminate | congruence].
  - split; [discriminate|]. intros _. now exists r.
Qed.

Lemma scanners_never_panic_witness :
  exists r, scanner_of_kind globOne 0%nat (str "ab") (str "b") = Ret r.
Proof.
  apply (proj2 (scanners_never_panic globOne 0 (str "ab") (str "b"))).
  discriminate.
Defined.

(** [strings.HasPrefix] and [strings.Index], as the properties read them *)

Lemma HasPrefix_iff (s p : gostring) :
  strings.HasPrefix s p = true <-> exists u, s = p ++ u.
Proof.
  revert s; induction p as [|x p IH]; intros s; cbn [strings.HasPrefix].
  - split; [intros _; now exists s | reflexivity].
  - destruct s as [|c s]; [split; [discriminate | intros [u H]; discriminate H]|].
    rewrite andb_true_iff, IH. split.
    + intros [E [u ->]]. apply Byte.byte_dec_bl in E. subst. now exists u.
    + intros [u H]. injection H as -> ->. split; [now apply Byte.byte_dec_lb | now exists u].
Qed.

(** X4.  The literal scanner succeeds exactly when the input begins with
    the tail; it then returns what follows the tail and the length of
    the tail.  An empty tail always succeeds and consumes nothing. *)
Theorem consumeSubstring_iff_prefix (fuel : nat) (s p : gostring) :
  (forall u, s = p ++ u -> consumeSubstring fuel s p = Ret (true, u, len p)) /\
  ((forall u, s <> p ++ u) -> consumeSubstring fuel s p = Ret (false, s, 0)).
Proof.
  destruct p as [|x p].
  - split; [|intros H; now destruct (H s)].
    intros u ->. unfold consumeSubstring. pose proof (len_nonneg u).
    destruct (len ([] ++ u) <? len []) eqn:E; [|reflexivity].
    apply Z.ltb_lt in E. cbn [app] in E. rewrite len_nil in E. lia.
  - destruct (consumeSubstring_spec fuel s (x :: p)) as [(u & -> & H)|[Hno H]];
      [discriminate | |].
    + split; [|intros Hno; now destruct (Hno u)].
      intros u' E. apply app_inv_head in E. now subst.
    + split; [|intros _; exact H]. intros u E. now destruct (Hno u).
Qed.


Lemma consumeSubstring_iff_prefix_witness :
  consumeSubstring 0%nat (str "PLAN9_foo") (str "PLAN9") = Ret (true, str "_foo", len (str "PLAN9")).
Proof.
  apply (proj1 (consumeSubstring_iff_prefix 0 (str "PLAN9_foo") (str "PLAN9")) (str "_foo")).
  reflexivity.
Defined.

Lemma Index_at_absent (s sub : gostring) :
  forall i,
    (forall j, (j <= List.length s)%nat -> strings.HasPrefix (skipn j s) sub = false) ->
    strings.Index_at s sub i = -1.
Proof.
  induction s as [|c s IH]; intros i H; cbn [strings.Index_at];
    pose proof (H 0%nat (Nat.le_0_l _)) as H0; cbn [skipn] in H0; rewrite H0.
  - reflexivity.
  - apply IH. intros j Hj. apply (H (S j)). cbn [List.length]. lia.
Qed.

Lemma Index_at_first (sub : gostring) (k : nat) :
  forall s i,
    (forall j, (j < k)%nat -> strings.HasPrefix (skipn j s) sub = false) ->
    strings.HasPrefix (skipn k s) sub = true ->
    strings.Index_at s sub i = i + Z.of_nat k.
Proof.
  induction k as [|k IH]; intros s i Hno Hk.
  - cbn [skipn] in Hk. destruct s; cbn [strings.Index_at]; rewrite Hk; lia.
  - pose proof (Hno 0%nat (Nat.lt_0_succ _)) as H0. cbn [skipn] in H0.
    destruct s as [|c s]; [cbn [skipn] in Hk; congruence|].
    cbn [strings.Index_at]. rewrite H0. cbn [skipn] in Hk.
    rewrite (IH s (i + 1)); [lia | | assumption].
    intros j Hj. apply (Hno (S j)). lia.
Qed.

(** X5.  On a tail that is not empty the multi-character wildcard
    scanner fails, leaving the input as it is, when the tail occurs
    nowhere in the input; and when the tail does not stand at byte 0 and
    first occurs at byte [k], it returns the input past that
    occurrence and [k] plus the length of the tail. *)
Theorem consumeAllPreceding_first_occurrence (fuel : nat) (s sub : gostring) :
  sub <> [] ->
  ((forall j, (j <= List.length s)%nat -> strings.HasPrefix (skipn j s) sub = false) ->
   consumeAllPreceding (1 + fuel)%nat s sub = Ret (false, s, 0)) /\
  (forall k : nat,
      (0 < k)%nat ->
      (forall j, (j < k)%nat -> strings.HasPrefix (skipn j s) sub = false) ->
      strings.HasPrefix (skipn k s) sub = true ->
      consumeAllPreceding (1 + fuel)%nat s sub
      = Ret (true, skipn (k + List.length sub) s, Z.of_nat k + len sub)).
Proof.
  intros Hne. split.
  - intros Hno. destruct s as [|b s].
    + unfold consumeAllPreceding. change (len [] =? 0) with true. cbv iota.
      destruct (len sub =? 0) eqn:E; [apply Z.eqb_eq, len_zero in E; contradiction|].
      reflexivity.
    + apply (consumeAllPreceding_cases fuel b s sub Hne).
      now apply Index_at_absent.
  - intros k Hk Hno Hat. destruct s as [|b s].
    + destruct k; [lia|]. cbn [skipn] in Hat.
      destruct sub; [contradiction | discriminate].
    + pose proof (Index_at_first sub k (b :: s) 0 Hno Hat) as Hi.
      fold (strings.Index (b :: s) sub) in Hi.
      destruct (consumeAllPreceding_cases fuel b s sub Hne) as (_ & H & _).
      rewrite H by lia. rewrite Hi.
      replace (Z.to_nat (0 + Z.of_nat k + len sub)) with (k + List.length sub)%nat
        by (unfold len; lia).
      now rewrite Z.add_0_l.
Qed.

Lemma consumeAllPreceding_first_occurrence_witness :
  consumeAllPreceding (1 + 0)%nat (str "quz/baz") (str "/baz")
  = Ret (true, skipn (3 + List.length (str "/baz")) (str "quz/baz"),
         Z.of_nat 3 + len (str "/baz")).
Proof.
  apply (proj2 (consumeAllPreceding_first_occurrence 0 (str "quz/baz") (str "/baz")
                  ltac:(discriminate)) 3%nat).
  - repeat constructor.
  - intros [|[|[|j]]] Hj; try reflexivity. exfalso.
    apply (Nat.lt_irrefl 3). apply Nat.le_lt_trans with (S (S (S j))); [|exact Hj].
    repeat apply le_n_S. apply Nat.le_0_l.
  - reflexivity.
Defined.


(** ** The compiler never fails but by [ErrInvalidGlobSequence] *)

Lemma increasing_weaken (rs : list (Z * rune)) (lo lo' hi : Z) :
  lo' <= lo -> increasing lo rs hi -> increasing lo' rs hi.
Proof.
  destruct rs as [|[idx c] rs]; cbn [increasing]; intros H; [lia|].
  intros [H1 H2]. split; [lia | assumption].
Qed.

Lemma increasing_le (rs : list (Z * rune)) :
  forall lo hi, increasing lo rs hi -> lo <= hi.
Proof.
  induction rs as [|[i c] rs IH]; cbn [increasing]; intros lo hi H; [assumption|].
  destruct H as [H1 H2]. apply IH in H2. lia.
Qed.

Lemma range_from_increasing (s : gostring) :
  forall i skip, increasing i (range_from s i skip) (i + len s).
Proof.
  induction s as [|a s IH]; intros i skip; cbn [range_from increasing].
  - rewrite len_nil. lia.
  - rewrite len_cons. replace (i + (len s + 1)) with (i + 1 + len s) by lia.
    destruct skip as [|k].
    + destruct (utf8.DecodeRuneInString (a :: s)) as [c sz]. cbn [increasing].
      split; [lia | apply IH].
    + apply increasing_weaken with (lo := i + 1); [lia | apply IH].
Qed.

Lemma index_last {A : Type} (init : list A) (l : A) :
  index (init ++ [l]) (len (init ++ [l]) - 1) = Ret l.
Proof.
  unfold index. pose proof (len_nonneg init).
  assert (E : len (init ++ [l]) - 1 = len init)
    by (rewrite len_app, len_cons, len_nil; lia).
  rewrite E.
  assert (C : (0 <=? len init) && (len init <? len (init ++ [l])) = true)
    by (rewrite andb_true_iff, Z.leb_le, Z.ltb_lt; lia).
  rewrite C. unfold len. rewrite Nat2Z.id.
  now rewrite nth_error_app2, Nat.sub_diag by lia.
Qed.

Lemma set_last_snoc (init : list globScanner) (l g : globScanner) :
  set_last (init ++ [l]) g = init ++ [g].
Proof.
  induction init as [|x init IH]; [reflexivity|].
  cbn [app]. rewrite <- IH.
  destruct (init ++ [l]) as [|y ys] eqn:E; [now destruct init | reflexivity].
Qed.

Lemma len_snoc_pos {A : Type} (init : list A) (l : A) : (0 <? len (init ++ [l])) = true.
Proof.
  apply Z.ltb_lt. unfold len. rewrite length_app. cbn [List.length]. lia.
Qed.

Lemma classify_Some (idx : Z) (code : rune) fn start0 k :
  classify idx code = Some (fn, start0, k) ->
  fn = scanner_of_kind k /\ k <> globEnd /\
  (k = globMany -> code = asterisk) /\
  ((code =? backslash) = true -> k = globString) /\
  ((start0 = -1 /\ utf8.RuneLen code = 1) \/ (start0 = idx /\ idx = 0)).
Proof.
  unfold classify.
  destruct (code =? backslash) eqn:Eb;
    [|destruct (code =? asterisk) eqn:Ea;
      [|destruct (code =? question) eqn:Eq; [|destruct (idx =? 0) eqn:E0]]];
    intros H; try discriminate; injection H as <- <- <-;
    rewrite ?Z.eqb_eq in *; subst;
    repeat split; try discriminate; try congruence; auto.
Qed.

Lemma step_ok_set_substr (pat : gostring) (l : globScanner) (sub : gostring) :
  step_ok pat l -> step_ok pat (set_substr l sub).
Proof. intros H. exact H. Qed.

Lemma step_ok_set_start (pat : gostring) (l : globScanner) (n : Z) :
  step_ok pat l -> step_ok pat (set_start l n).
Proof. intros H. exact H. Qed.

Lemma Forall_snoc_inv {A : Type} (P : A -> Prop) (init : list A) (l : A) :
  Forall P (init ++ [l]) -> Forall P init /\ P l.
Proof.
  intros H. apply Forall_app in H. destruct H as [H1 H2]. split; [assumption|].
  now inversion H2.
Qed.

Lemma Forall_snoc {A : Type} (P : A -> Prop) (init : list A) (l : A) :
  Forall P init -> P l -> Forall P (init ++ [l]).
Proof. intros H1 H2. apply Forall_app. split; [assumption | now constructor]. Qed.

(** One turn of the compiler's loop, at an index the invariant allows. *)
Lemma compile_step_inv (pat : gostring) (ws : list globScanner) (lo idx : Z) (code : rune) :
  compile_inv pat ws lo ->
  0 <= lo <= idx -> idx < len pat ->
  (code = asterisk -> In "*"%byte pat) ->
  (compile_step pat ws idx code = Ret (Fail ErrInvalidGlobSequence) /\
   In "*"%byte pat) \/
  exists ws', compile_step pat ws idx code = Ret (Next ws') /\
              compile_inv pat ws' (idx + 1).
Proof.
  intros [Hall Hlast] Hlo Hhi Hstar. unfold compile_step.
  destruct (classify idx code) as [[[fn start0] k]|] eqn:C.
  2:{ right. exists ws. split; [reflexivity|]. split; [assumption|].
      destruct Hlast as [->|(init & l & -> & Hs & Hst)]; [now left | right].
      exists init, l. repeat split; try assumption; lia. }
  apply classify_Some in C. destruct C as (-> & Hk & Hmany & Hbs & Hstart).
  assert (Hnew : forall st, step_ok pat (mkScanner (scanner_of_kind k) k [] st)).
  { intros st. repeat split; cbn [kind]; auto. }
  assert (Hst1 : 0 <= (if start0 =? -1 then idx + utf8.RuneLen code else start0) <= idx + 1).
  { destruct Hstart as [[-> ->]|[-> ->]]; cbn; lia. }
  destruct Hlast as [->|(init & l & -> & Hs & Hst)].
  - change (0 <? len []) with false. cbv iota. right. eexists. split; [reflexivity|].
    split; [now constructor|]. right. eexists []. eexists.
    split; [reflexivity|]. split; [reflexivity|]. exact Hst1.
  - rewrite len_snoc_pos, index_last. cbn [bind].
    apply Forall_snoc_inv in Hall. destruct Hall as [Hinit Hl].
    destruct (_ && globKind_eqb (kind l) globMany && _) eqn:F.
    { left. split; [reflexivity|]. apply andb_true_iff in F. destruct F as [F _].
      apply andb_true_iff in F. destruct F as [_ F]. apply Hl.
      destruct (kind l); now try discriminate. }
    right.
    destruct ((code =? backslash) && (len (substr l) =? 0)) eqn:B.
    + apply andb_true_iff in B. destruct B as [B _]. apply Z.eqb_eq in B. subst code.
      rewrite set_last_snoc. eexists. split; [reflexivity|]. split.
      * apply Forall_snoc; [assumption | exact Hl].
      * right. exists init. eexists. split; [reflexivity|]. cbn [substr start set_start].
        split; [assumption|]. change (utf8.RuneLen backslash) with 1. lia.
    + rewrite slice_ok by lia. cbn [bind]. rewrite set_last_snoc.
      eexists. split; [reflexivity|]. split.
      * apply Forall_snoc; [|apply Hnew]. apply Forall_snoc; [assumption | exact Hl].
      * right. eexists. eexists. split; [reflexivity|]. split; [reflexivity|].
        exact Hst1.
Qed.

Lemma compile_loop_inv (pat : gostring) (rs : list (Z * rune)) :
  forall ws lo,
    compile_inv pat ws lo -> 0 <= lo ->
    increasing lo rs (len pat) ->
    (forall idx, In (idx, asterisk) rs -> In "*"%byte pat) ->
    (compile_loop pat ws rs = Ret (Fail ErrInvalidGlobSequence) /\
     In "*"%byte pat) \/
    exists ws', compile_loop pat ws rs = Ret (Next ws') /\
                compile_inv pat ws' (len pat).
Proof.
  induction rs as [|[idx code] rs IH]; intros ws lo Hinv Hlo Hinc Hstar;
    cbn [compile_loop increasing] in *.
  - right. exists ws. split; [reflexivity|]. destruct Hinv as [Hall Hlast].
    split; [assumption|].
    destruct Hlast as [->|(init & l & -> & Hs & Hst)]; [now left | right].
    exists init, l. repeat split; try assumption; lia.
  - destruct Hinc as [Hidx Hinc].
    assert (Hlt : idx < len pat) by (apply increasing_le in Hinc; lia).
    destruct (compile_step_inv pat ws lo idx code Hinv (conj Hlo Hidx) Hlt)
      as [[E Hin]|(ws' & E & Hinv')].
    + intros ->. apply (Hstar idx). now left.
    + rewrite E. left. now split.
    + rewrite E. cbn [bind]. apply (IH ws' (idx + 1)); try assumption; [lia|].
      intros i Hi. apply (Hstar i). now right.
Qed.


Lemma range_string_asterisk (pat : gostring) (idx : Z) :
  In (idx, asterisk) (range_string pat) -> In "*"%byte pat.
Proof.
  intros H. apply range_from_In in H. destruct H as [_ H].
  destruct H as (b & Hb & E); [unfold utf8.RuneSelf, asterisk; lia|].
  replace "*"%byte with b; [assumption|]. now apply byteZ_inj.
Qed.

(** The two ways [NewPattern] ends, and what its steps are made of. *)
Lemma NewPattern_cases (pat : gostring) :
  (NewPattern pat = Ret (None, Some ErrInvalidGlobSequence) /\ In "*"%byte pat) \/
  exists ws, NewPattern pat = Ret (Some (mkGlobPattern pat (ws ++ [End_step pat])), None) /\
             Forall (step_ok pat) ws.
Proof.
  unfold NewPattern, compileGlobPattern.
  destruct (compile_loop_inv pat (range_string pat) [] 0)
    as [[E Hin]|(ws & E & Hall & Hlast)].
  - split; [constructor | now left].
  - lia.
  - replace (len pat) with (0 + len pat) by lia. apply range_from_increasing.
  - apply range_string_asterisk.
  - rewrite E. left. now split.
  - rewrite E. cbn [bind]. right.
    assert (Hlen : forall ss : list globScanner, (len (ss ++ [End_step pat]) =? 0) = false).
    { intros ss. apply Z.eqb_neq. rewrite len_app, len_cons.
      pose proof (len_nonneg ss). pose proof (@len_nonneg globScanner []). lia. }
    destruct Hlast as [->|(init & l & -> & Hs & Hst)].
    + change (0 <? len []) with false. cbn [bind]. rewrite Hlen.
      exists []. split; [reflexivity | constructor].
    + rewrite len_snoc_pos, index_last. cbn [bind].
      rewrite slice_from_ok by lia. cbn [bind]. rewrite set_last_snoc, Hlen.
      eexists. split; [reflexivity|].
      apply Forall_snoc_inv in Hall. destruct Hall as [Hinit Hl].
      apply Forall_snoc; [assumption | exact Hl].
Qed.

(** X6.  [NewPattern] never panics on a slice of the pattern: on every
    pattern it returns either a compiled pattern and no error, or no
    pattern and [ErrInvalidGlobSequence]; and it returns the error only
    for a pattern that holds an asterisk. *)
Theorem NewPattern_always_returns (pat : gostring) :
  (NewPattern pat = Ret (None, Some ErrInvalidGlobSequence) /\ In "*"%byte pat) \/
  exists g, NewPattern pat = Ret (Some g, None).
Proof.
  destruct (NewPattern_cases pat) as [H|(ws & H & _)]; [now left | right].
  eexists. exact H.
Qed.

(** X7.  In a compiled pattern every step carries the scanner of its
    kind, and the End step, which closes the sequence, is the only step
    of kind [globEnd]. *)
Theorem compiled_steps_pair_scanner_and_kind (pat : gostring) (g : GlobPattern)
        (e : option error) :
  NewPattern pat = Ret (Some g, e) ->
  Forall step_wf (steps g) /\
  exists ws, steps g = ws ++ [End_step pat] /\
             Forall (fun t => kind t <> globEnd) ws.
Proof.
  intros H. destruct (NewPattern_cases pat) as [[E _]|(ws & E & Hall)];
    rewrite E in H; [discriminate|].
  injection H as <- <-. cbn [steps]. split.
  - apply Forall_snoc; [|reflexivity].
    apply Forall_impl with (2 := Hall). now intros t (Ht & _).
  - exists ws. split; [reflexivity|].
    apply Forall_impl with (2 := Hall). now intros t (_ & Ht & _).
Qed.

Lemma compiled_steps_pair_scanner_and_kind_witness :
  Forall step_wf star_ab /\
  exists ws, star_ab = ws ++ [End_step (str "*ab")] /\
             Forall (fun t => kind t <> globEnd) ws.
Proof.
  apply (compiled_steps_pair_scanner_and_kind
           (str "*ab") (mkGlobPattern (str "*ab") star_ab) None).
  reflexivity.
Defined.


(** ** The matcher never slices out of range *)

Lemma index_ok {A : Type} (xs : list A) (i : Z) :
  0 <= i < len xs -> exists x, index xs i = Ret x /\ In x xs.
Proof.
  intros H. unfold index.
  assert (C : (0 <=? i) && (i <? len xs) = true)
    by (rewrite andb_true_iff, Z.leb_le, Z.ltb_lt; lia).
  rewrite C. destruct (nth_error xs (Z.to_nat i)) as [x|] eqn:E.
  - exists x. split; [reflexivity|]. now apply nth_error_In in E.
  - apply nth_error_None in E. unfold len in H. lia.
Qed.

(** When the step at hand is the first [globMany] step, the checkpoint
    is the input the step is entered with. *)
Lemma record_many_checkpoint (ss : list globScanner) (c : cursor) (test : globScanner) :
  checkpoint_inv ss c ->
  index ss (stepIndex c) = Ret test ->
  firstMany (record_many test c) = stepIndex c ->
  firstManySubstr (record_many test c) = rest c.
Proof.
  intros [H0 Hinv] Hi. unfold record_many.
  destruct (((firstMany c =? -1) || (firstMany c =? stepIndex c))
            && globKind_eqb (kind test) globMany) eqn:C; [reflexivity|].
  intros E. exfalso. rewrite E, Z.eqb_refl, orb_true_r in C. cbn [andb] in C.
  destruct Hinv as [[Hf _]|[[(t & Ht & Hk) _] _]]; [lia|].
  rewrite E, Hi in Ht. injection Ht as <-. now rewrite Hk in C.
Qed.

Lemma advance_no_panic (c : cursor) : advance c <> Panic.
Proof.
  unfold advance. destruct (negb (matches c)); [|discriminate].
  destruct (firstMany c =? -1); [discriminate|].
  destruct (stepIndex c =? 0); [discriminate|].
  destruct (wasReset c); [discriminate|]. cbn [orb].
  destruct (firstManySubstr c) as [|b tl]; [discriminate|].
  replace (len (b :: tl) =? 0) with false
    by (symmetry; apply Z.eqb_neq; rewrite len_cons; pose proof (len_nonneg tl); lia).
  rewrite slice_from_1. discriminate.
Qed.

Lemma Matches_body_no_panic (fuel : nat) (ss : list globScanner) (c : cursor) :
  Forall step_wf ss ->
  checkpoint_inv ss c ->
  stepIndex c < len ss ->
  Matches_body fuel ss c <> Panic.
Proof.
  intros Hwf Hinv Hlt. unfold Matches_body.
  destruct (index_ok ss (stepIndex c)) as (test & Hi & Hin); [destruct Hinv; lia|].
  rewrite Hi. cbn [bind]. rewrite Forall_forall in Hwf. specialize (Hwf test Hin).
  destruct (record_many_fields test c) as (Hs0 & Hr0 & _).
  unfold scan. rewrite Hwf.
  destruct (scanner_of_kind_ok (kind test) fuel (rest (record_many test c)) (substr test))
    as [[_ E]|([[m s'] n] & E & Hok)]; rewrite E; cbn [bind]; [discriminate|].
  destruct Hok as (Hn & _ & _ & Hm).
  destruct (m && (firstMany (record_many test c) =? stepIndex (record_many test c))) eqn:C.
  - apply andb_true_iff in C. destruct C as [-> C]. apply Z.eqb_eq in C.
    rewrite Hs0 in C. rewrite (record_many_checkpoint ss c test Hinv Hi C).
    rewrite Hr0 in Hn. specialize (Hm eq_refl). pose proof (len_nonneg (substr test)).
    rewrite slice_from_ok by lia. cbn [bind]. apply advance_no_panic.
  - apply advance_no_panic.
Qed.

Lemma Matches_loop_no_panic (ss : list globScanner) (fuel : nat) :
  Forall step_wf ss ->
  forall c, checkpoint_inv ss c -> Matches_loop fuel ss c <> Panic.
Proof.
  intros Hwf. induction fuel as [|fuel IH]; intros c Hinv; cbn [Matches_loop];
    [discriminate|].
  destruct (stepIndex c <? len ss) eqn:E; [|discriminate]. apply Z.ltb_lt in E.
  destruct (Matches_body fuel ss c) as [[c'|b]| |] eqn:B; cbn [bind].
  - apply IH. exact (Matches_body_inv fuel ss c c' Hinv B).
  - discriminate.
  - now apply Matches_body_no_panic in B.
  - discriminate.
Qed.

Lemma checkpoint_inv_initial (ss : list globScanner) (s : gostring) :
  checkpoint_inv ss (initial s).
Proof. apply reachable_inv with (s := s). constructor. Qed.

(** X8.  Matching with a pattern given as text, or with the compiled
    pattern [NewPattern] returned, never panics: no slice of the
    candidate or of the checkpoint, and no index into the steps, is out
    of range, whatever the pattern and the candidate. *)
Theorem Matches_never_panics (fuel : nat) (pat s : gostring) :
  Matches fuel (PatternStr pat) s <> Panic /\
  (forall g e, NewPattern pat = Ret (Some g, e) -> GlobPattern_Matches fuel g s <> Panic).
Proof.
  assert (H : forall g e, NewPattern pat = Ret (Some g, e) ->
                          GlobPattern_Matches fuel g s <> Panic).
  { intros g e E. destruct (NewPattern_cases pat) as [[E' _]|(ws & E' & Hall)];
      rewrite E' in E; [discriminate|].
    injection E as <- <-. unfold GlobPattern_Matches. cbn [steps].
    apply Matches_loop_no_panic; [|apply checkpoint_inv_initial].
    apply Forall_snoc; [|reflexivity].
    apply Forall_impl with (2 := Hall). now intros t (Ht & _). }
  split; [|exact H]. unfold Matches, compiled.
  destruct (NewPattern_cases pat) as [[E _]|(ws & E & _)]; rewrite E; cbn [bind is_err];
    [discriminate|].
  cbn [matcher_Matches]. specialize (H _ _ E).
  destruct (GlobPattern_Matches fuel _ s); cbn [bind]; congruence.
Qed.

Lemma Matches_never_panics_witness :
  GlobPattern_Matches 5 (mkGlobPattern (str "*ab") star_ab) (str "xabab") <> Panic.
Proof.
  apply (proj2 (Matches_never_panics 5 (str "*ab") (str "xabab"))
               (mkGlobPattern (str "*ab") star_ab) None).
  reflexivity.
Defined.


(** ** Patterns without an asterisk *)

(** Without a [globMany] step the loop never goes back: it returns
    after one scan per step at most. *)
Lemma Matches_loop_no_many (ss : list globScanner) :
  Forall (fun t => step_wf t /\ kind t <> globMany) ss ->
  forall (k : nat) (c : cursor) (fuel : nat),
    firstMany c = -1 -> 0 <= stepIndex c ->
    len ss - stepIndex c <= Z.of_nat k ->
    exists b, Matches_loop (k + 1 + fuel) ss c = Ret b.
Proof.
  intros Hall. induction k as [|k IH]; intros c fuel Hf H0 Hk;
    rewrite <- Nat.add_assoc, Nat.add_comm; cbn [Nat.add Matches_loop].
  - replace (stepIndex c <? len ss) with false by (symmetry; apply Z.ltb_ge; lia).
    now eexists.
  - destruct (stepIndex c <? len ss) eqn:E; [|now eexists]. apply Z.ltb_lt in E.
    destruct (index_ok ss (stepIndex c)) as (test & Hi & Hin); [lia|].
    rewrite Forall_forall in Hall. destruct (Hall test Hin) as [Hwf Hkind].
    destruct (scanner_of_kind_ok (kind test) (fuel + S k) (rest c) (substr test))
      as [[Hm _]|([[m s'] n] & Hs & _)]; [contradiction|].
    rewrite <- Hwf in Hs.
    rewrite (Matches_body_before_many _ _ _ _ _ _ _ Hi Hkind Hf Hs).
    destruct m; cbn [bind]; [|now eexists].
    replace (fuel + S k)%nat with (k + 1 + fuel)%nat by lia.
    apply IH; cbn [firstMany stepIndex]; lia.
Qed.

(** X9.  A pattern that holds no asterisk always compiles, and matching
    the compiled pattern returns on every candidate, after one scan per
    step at most. *)
Theorem asterisk_free_pattern_always_answers (pat : gostring) :
  ~ In "*"%byte pat ->
  exists g, NewPattern pat = Ret (Some g, None) /\
            forall (fuel : nat) (s : gostring),
              exists b, GlobPattern_Matches (List.length (steps g) + 1 + fuel) g s = Ret b.
Proof.
  intros Hno. destruct (NewPattern_cases pat) as [[_ H]|(ws & E & Hall)];
    [contradiction|].
  eexists. split; [exact E|]. intros fuel s. unfold GlobPattern_Matches. cbn [steps].
  apply Matches_loop_no_many; cbn [initial firstMany stepIndex]; try lia.
  - apply Forall_snoc; [|split; [reflexivity | discriminate]].
    apply Forall_impl with (2 := Hall). intros t (Ht & _ & Hm). split; [assumption|].
    intros Hk. now apply Hno, Hm.
  - unfold len. lia.
Qed.

Lemma asterisk_free_pattern_always_answers_witness :
  exists g, NewPattern (str "ba?") = Ret (Some g, None) /\
            forall (fuel : nat) (s : gostring),
              exists b, GlobPattern_Matches (List.length (steps g) + 1 + fuel) g s = Ret b.
Proof.
  apply (asterisk_free_pattern_always_answers (str "ba?")).
  intros [H|[H|[H|[]]]]; discriminate.
Defined.


(** ** Plain text closed by one wildcard *)

Lemma first_lo (s0 sz lo hi : Z) : utf8.first s0 = Some (sz, lo, hi) -> 0x80 <= lo.
Proof.
  unfold utf8.first.
  repeat match goal with
         | |- context [if ?c then _ else _] => destruct c
         end;
    intros H; try discriminate; injection H as <- <- <-; lia.
Qed.

Lemma in_range_ascii (lo hi : Z) (b : byte) :
  byteZ b < utf8.RuneSelf -> 0x80 <= lo -> negb (utf8.in_range lo hi b) = true.
Proof.
  unfold utf8.in_range, utf8.RuneSelf. intros Hb Hlo.
  replace (lo <=? byteZ b) with false by (symmetry; apply Z.leb_gt; lia). reflexivity.
Qed.

(** A byte below [RuneSelf] ends the code point before it: decoding
    never reads past such a byte. *)
Lemma DecodeRuneInString_app_ascii (a : byte) (u : gostring) (b : byte) (v : gostring) :
  byteZ b < utf8.RuneSelf ->
  utf8.DecodeRuneInString (a :: u ++ b :: v) = utf8.DecodeRuneInString (a :: u).
Proof.
  intros Hb. unfold utf8.DecodeRuneInString.
  destruct (byteZ a <? utf8.RuneSelf); [reflexivity|].
  destruct (utf8.first (byteZ a)) as [[[sz lo] hi]|] eqn:F; [|reflexivity].
  apply first_lo in F.
  destruct u as [|b1 u1]; cbn [app].
  { now rewrite (in_range_ascii lo hi b Hb F). }
  destruct (negb (utf8.in_range lo hi b1)); [reflexivity|].
  destruct (sz <=? 2); [reflexivity|].
  destruct u1 as [|b2 u2]; cbn [app].
  { now rewrite (in_range_ascii 128 191 b Hb ltac:(lia)). }
  destruct (negb (utf8.in_range 128 191 b2)); [reflexivity|].
  destruct (sz <=? 3); [reflexivity|].
  destruct u2 as [|b3 u3]; cbn [app]; [|reflexivity].
  now rewrite (in_range_ascii 128 191 b Hb ltac:(lia)).
Qed.

Lemma DecodeRuneInString_ascii (b : byte) (v : gostring) :
  byteZ b < utf8.RuneSelf -> utf8.DecodeRuneInString (b :: v) = (byteZ b, 1).
Proof.
  intros Hb. unfold utf8.DecodeRuneInString. apply Z.ltb_lt in Hb. now rewrite Hb.
Qed.

(** In a [range] loop a byte below [RuneSelf] is always visited, with
    its own index and itself as code point. *)
Lemma range_from_app_ascii (u : gostring) (b : byte) (v : gostring) :
  byteZ b < utf8.RuneSelf ->
  forall i skip,
    (skip <= List.length u)%nat ->
    range_from (u ++ b :: v) i skip
    = range_from u i skip ++ (i + len u, byteZ b) :: range_from v (i + len u + 1) 0.
Proof.
  intros Hb. induction u as [|a u IH]; intros i skip Hskip.
  - cbn [List.length] in Hskip. assert (skip = 0%nat) as -> by lia.
    cbn [app range_from]. rewrite (DecodeRuneInString_ascii b v Hb).
    change (len (@nil byte)) with 0.
    change (Z.to_nat (1 - 1)) with 0%nat. now rewrite Z.add_0_r.
  - cbn [app range_from List.length] in *. rewrite len_cons.
    replace (i + (len u + 1)) with (i + 1 + len u) by lia.
    destruct skip as [|k].
    + rewrite (DecodeRuneInString_app_ascii a u b v Hb).
      destruct (utf8.DecodeRuneInString (a :: u)) as [c sz] eqn:D.
      apply DecodeRuneInString_size in D. rewrite len_cons in D.
      cbn [app]. f_equal. apply IH. unfold len in D. lia.
    + apply IH. lia.
Qed.

Lemma compile_loop_app (pat : gostring) (rs1 rs2 : list (Z * rune)) :
  forall ws,
    compile_loop pat ws (rs1 ++ rs2) =
    (t <- compile_loop pat ws rs1 ;;
     match t with
     | Next ws' => compile_loop pat ws' rs2
     | Fail e => Ret (Fail e)
     end).
Proof.
  induction rs1 as [|[idx code] rs1 IH]; intros ws; cbn [app compile_loop bind];
    [reflexivity|].
  destruct (compile_step pat ws idx code) as [[ws'|e]| |]; cbn [bind]; auto.
Qed.

(** On plain text the loop makes one literal step, at index 0, and then
    goes through the rest of the text without a change. *)
Lemma compile_loop_plain_text (pat : gostring) (b : byte) (t : gostring) :
  no_special (b :: t) ->
  compile_loop pat [] (range_from (b :: t) 0 0)
  = Ret (Next [mkScanner consumeSubstring globString [] 0]).
Proof.
  intros Hp.
  assert (Hhd : exists c sz, range_from (b :: t) 0 0
                             = (0, c) :: range_from t (0 + 1) (Z.to_nat (sz - 1))).
  { cbn [range_from]. destruct (utf8.DecodeRuneInString (b :: t)) as [c sz].
    now exists c, sz. }
  destruct Hhd as (c & sz & Hhd).
  destruct (plain_codes (b :: t) 0 0 0 c Hp) as (Hb & Ha & Hq);
    [rewrite Hhd; now left|].
  rewrite Hhd. cbn [compile_loop]. unfold compile_step at 1.
  rewrite (classify_plain _ _ Hb Ha Hq). change (0 =? 0) with true. cbv iota beta.
  change (0 <? len []) with false. cbv iota. change (0 =? -1) with false. cbv iota.
  cbn [bind app]. apply compile_loop_plain.
  intros idx code H. pose proof (plain_codes t _ _ _ _ (plain_tail _ _ Hp) H).
  apply range_from_In in H. split; [lia | assumption].
Qed.


Lemma slice_app_head (p x : gostring) : slice (p ++ x) 0 (len p) = Ret p.
Proof.
  pose proof (len_nonneg p). pose proof (len_nonneg x).
  rewrite slice_ok by (rewrite ?len_app; lia). cbn [skipn Z.to_nat].
  rewrite Z.sub_0_r. unfold len. rewrite Nat2Z.id.
  now rewrite firstn_app, Nat.sub_diag, firstn_all, app_nil_r.
Qed.

Lemma slice_from_end (p : gostring) (w : byte) :
  slice_from (p ++ [w]) (len p + 1) = Ret [].
Proof.
  replace (len p + 1) with (len (p ++ [w])) by (now rewrite len_app, len_cons, len_nil).
  apply slice_from_len.
Qed.

(** What plain text closed by one wildcard compiles to. *)
Lemma NewPattern_trailing (p : gostring) (w : byte) (k : globKind) :
  no_special p ->
  (w = "*"%byte /\ k = globMany) \/ (w = "?"%byte /\ k = globOne) ->
  NewPattern (p ++ [w])
  = Ret (Some (mkGlobPattern (p ++ [w]) (trailing_steps p w k)), None).
Proof.
  intros Hp Hw. destruct p as [|b t].
  { destruct Hw as [[-> ->]|[-> ->]]; reflexivity. }
  assert (Hb : byteZ w < utf8.RuneSelf) by (destruct Hw as [[-> _]|[-> _]]; reflexivity).
  assert (Hc : forall idx, classify idx (byteZ w) = Some (scanner_of_kind k, -1, k))
    by (intros idx; destruct Hw as [[-> ->]|[-> ->]]; reflexivity).
  assert (Hk : (globKind_eqb k globOne || globKind_eqb k globMany)
               && globKind_eqb globString globMany = false)
    by (destruct Hw as [[_ ->]|[_ ->]]; reflexivity).
  assert (Hbs : (byteZ w =? backslash) = false)
    by (destruct Hw as [[-> _]|[-> _]]; reflexivity).
  assert (Hrl : utf8.RuneLen (byteZ w) = 1)
    by (destruct Hw as [[-> _]|[-> _]]; reflexivity).
  unfold NewPattern, compileGlobPattern, range_string, trailing_steps.
  rewrite (range_from_app_ascii (b :: t) w [] Hb 0 0 (Nat.le_0_l _)).
  pose proof (slice_app_head (b :: t) [w]) as S1.
  pose proof (slice_from_end (b :: t) w) as S2.
  pose proof (compile_loop_plain_text ((b :: t) ++ [w]) b t Hp) as L.
  assert (Hne : b :: t <> []) by discriminate.
  remember (b :: t) as p eqn:Ep. clear Ep. remember (p ++ [w]) as pat eqn:Epat.
  cbn [range_from]. rewrite compile_loop_app, L.
  cbn [bind compile_loop]. unfold compile_step. rewrite Hc.
  change (0 <? len [_]) with true. cbv iota.
  change (index [?x] (len [?x] - 1)) with (Ret x).
  cbn [bind kind start substr]. rewrite Hk. cbn [andb]. rewrite Hbs. cbn [andb].
  rewrite Z.add_0_l, S1. cbn [bind set_last set_substr scanner kind start app].
  change (-1 =? -1) with true. cbv iota. rewrite Hrl.
  change (0 <? len [_; _]) with true. cbv iota.
  change (index [?x; ?y] (len [?x; ?y] - 1)) with (Ret y). cbn [bind start].
  rewrite S2. cbn [bind set_last set_substr scanner kind start app].
  change (len [_; _; _] =? 0) with false. cbv iota.
  destruct p; [contradiction | reflexivity].
Qed.


(** The loop at a [globMany] step with an empty tail that only the End
    step follows, before any backtracking point is set: the wildcard
    takes all the input and the match succeeds. *)
Lemma Matches_many_then_end (fuel : nat) (ss : list globScanner) (c : cursor) (st e : Z) :
  index ss (stepIndex c) = Ret (mkScanner consumeAllPreceding globMany [] st) ->
  index ss (stepIndex c + 1) = Ret (mkScanner consumeEnd globEnd [] e) ->
  len ss = stepIndex c + 2 ->
  firstMany c = -1 ->
  Matches_loop (3 + fuel) ss c = Ret true.
Proof.
  intros Hi He Hlen Hf. change (3 + fuel)%nat with (S (S (S fuel))).
  cbn [Matches_loop].
  replace (stepIndex c <? len ss) with true by (symmetry; apply Z.ltb_lt; lia).
  unfold Matches_body at 1. rewrite Hi. cbn [bind]. unfold record_many. rewrite Hf.
  change (-1 =? -1) with true. cbn [orb andb kind globKind_eqb]. unfold scan.
  cbn [scanner substr rest stepIndex firstMany firstManySubstr wasReset].
  rewrite consumeAllPreceding_empty_tail. cbn [bind andb]. rewrite Z.eqb_refl.
  change (len (@nil byte)) with 0. rewrite Z.sub_0_r, slice_from_len. cbn [bind].
  unfold advance at 1. cbn [matches negb stepIndex rest bytesConsumed firstMany
                            firstManySubstr wasReset bind].
  replace (stepIndex c + 1 <? len ss) with true by (symmetry; apply Z.ltb_lt; lia).
  unfold Matches_body. cbn [stepIndex]. rewrite He. cbn [bind]. unfold record_many.
  cbn [kind globKind_eqb]. rewrite andb_false_r. unfold scan.
  cbn [scanner substr rest stepIndex firstMany firstManySubstr wasReset consumeEnd].
  unfold consumeEnd. change (len (@nil byte) =? 0) with true. cbn [bind andb].
  replace (stepIndex c =? stepIndex c + 1) with false by (symmetry; apply Z.eqb_neq; lia).
  unfold advance. cbn [matches negb stepIndex rest bytesConsumed firstMany
                       firstManySubstr wasReset bind].
  replace (stepIndex c + 1 + 1 <? len ss) with false by (symmetry; apply Z.ltb_ge; lia).
  change (len (@nil byte) =? 0) with true.
  replace (stepIndex c + 1 + 1 =? len ss) with true by (symmetry; apply Z.eqb_eq; lia).
  reflexivity.
Qed.

Lemma ReadRune_Decode (b : byte) (t : gostring) :
  strings.ReadRune (b :: t)
  = (fst (utf8.DecodeRuneInString (b :: t)), snd (utf8.DecodeRuneInString (b :: t)), None).
Proof.
  unfold strings.ReadRune. destruct (byteZ b <? utf8.RuneSelf) eqn:E.
  - apply Z.ltb_lt in E. now rewrite (DecodeRuneInString_ascii b t E).
  - now destruct (utf8.DecodeRuneInString (b :: t)).
Qed.

(** With an empty tail the single-character wildcard scanner takes the
    first code point of an input that is not empty. *)
Lemma consumeOnePreceding_empty_tail (fuel : nat) (u : gostring) :
  consumeOnePreceding fuel u [] =
  Ret (if len u =? 0 then (false, u, 0)
       else (true, skipn (Z.to_nat (snd (utf8.DecodeRuneInString u))) u,
             snd (utf8.DecodeRuneInString u))).
Proof.
  destruct u as [|b t]; [reflexivity|].
  unfold consumeOnePreceding. rewrite ReadRune_Decode.
  destruct (utf8.DecodeRuneInString (b :: t)) as [c size] eqn:D. cbn [fst snd].
  apply DecodeRuneInString_size in D. pose proof (len_nonneg t).
  change (len (@nil byte)) with 0. cbn [is_err negb andb].
  replace (len (b :: t) <? 1) with false by (symmetry; apply Z.ltb_ge; lia).
  replace (len (b :: t) - size <? 0) with false by (symmetry; apply Z.ltb_ge; lia).
  replace (len (b :: t) <? 0 + 1) with false by (symmetry; apply Z.ltb_ge; lia).
  replace (len (b :: t) =? 0) with false by (symmetry; apply Z.eqb_neq; lia).
  change (0 =? 0) with true. cbv iota. now rewrite slice_from_ok by lia.
Qed.

(** The loop at a [globOne] step with an empty tail that only the End
    step follows, before any backtracking point is set: the match
    succeeds exactly when the input left is one code point. *)
Lemma Matches_one_then_end (fuel : nat) (ss : list globScanner) (c : cursor) (st e : Z) :
  index ss (stepIndex c) = Ret (mkScanner consumeOnePreceding globOne [] st) ->
  index ss (stepIndex c + 1) = Ret (mkScanner consumeEnd globEnd [] e) ->
  len ss = stepIndex c + 2 ->
  firstMany c = -1 ->
  Matches_loop (3 + fuel) ss c = Ret (one_code_point (rest c)).
Proof.
  intros Hi He Hlen Hf. change (3 + fuel)%nat with (S (S (S fuel))).
  cbn [Matches_loop].
  replace (stepIndex c <? len ss) with true by (symmetry; apply Z.ltb_lt; lia).
  pose proof (consumeOnePreceding_empty_tail (S (S fuel)) (rest c)) as Hs.
  unfold one_code_point. destruct (len (rest c) =? 0) eqn:E0.
  - rewrite (Matches_body_before_many _ _ _ _ _ _ _ Hi ltac:(discriminate) Hf Hs).
    reflexivity.
  - rewrite (Matches_body_before_many _ _ _ _ _ _ _ Hi ltac:(discriminate) Hf Hs).
    cbn [bind negb andb].
    set (size := snd (utf8.DecodeRuneInString (rest c))).
    set (c1 := mkCursor _ _ _ _ _ _ _). cbn [Matches_loop].
    replace (stepIndex c1 <? len ss) with true
      by (symmetry; apply Z.ltb_lt; subst c1; cbn [stepIndex]; lia).
    assert (He' : index ss (stepIndex c1) = Ret (mkScanner consumeEnd globEnd [] e))
      by exact He.
    rewrite (Matches_body_before_many (S fuel) ss c1 _ ((len (rest c1) =? 0) && true)
               (rest c1) 0 He' ltac:(discriminate) eq_refl eq_refl).
    assert (Hsz : 1 <= size <= len (rest c)).
    { subst size. destruct (rest c) as [|b t]; [discriminate|].
      destruct (utf8.DecodeRuneInString (b :: t)) as [cp sz] eqn:D.
      now apply DecodeRuneInString_size in D. }
    assert (Hrest : len (rest c1) = len (rest c) - size).
    { subst c1. cbn [rest]. unfold len. rewrite length_skipn. unfold len in Hsz. lia. }
    rewrite Hrest, andb_true_r.
    destruct (size =? len (rest c)) eqn:Es.
    + apply Z.eqb_eq in Es.
      replace (len (rest c) - size =? 0) with true by (symmetry; apply Z.eqb_eq; lia).
      cbn [bind Matches_loop stepIndex rest].
      replace (stepIndex c1 + 1 <? len ss) with false
        by (symmetry; apply Z.ltb_ge; subst c1; cbn [stepIndex]; lia).
      fold c1. rewrite Hrest.
      replace (len (rest c) - size =? 0) with true by (symmetry; apply Z.eqb_eq; lia).
      replace (stepIndex c1 + 1 =? len ss) with true
        by (symmetry; apply Z.eqb_eq; subst c1; cbn [stepIndex]; lia).
      reflexivity.
    + apply Z.eqb_neq in Es.
      replace (len (rest c) - size =? 0) with false by (symmetry; apply Z.eqb_neq; lia).
      reflexivity.
Qed.


(** The loop on the steps of plain text closed by one wildcard: the
    literal step first, when there is one, then the wildcard and the End
    step, judged by [tail_ok] on what the text leaves of the input. *)
Lemma Matches_trailing (fuel : nat) (p s : gostring) (w : byte) (k : globKind)
      (tail_ok : gostring -> bool) :
  (forall f ss c st e,
      index ss (stepIndex c) = Ret (mkScanner (scanner_of_kind k) k [] st) ->
      index ss (stepIndex c + 1) = Ret (mkScanner consumeEnd globEnd [] e) ->
      len ss = stepIndex c + 2 -> firstMany c = -1 ->
      Matches_loop (3 + f) ss c = Ret (tail_ok (rest c))) ->
  (forall u, s = p ++ u ->
             Matches_loop (4 + fuel) (trailing_steps p w k) (initial s) = Ret (tail_ok u)) /\
  ((forall u, s <> p ++ u) ->
   Matches_loop (4 + fuel) (trailing_steps p w k) (initial s) = Ret false).
Proof.
  intros Htail. destruct p as [|x p].
  - split; [|intros H; now destruct (H s)]. intros u ->. cbn [app].
    apply (Htail (1 + fuel)%nat (trailing_steps [] w k) (initial u) (len (@nil byte) + 1)
                 (len ([] ++ [w]))); reflexivity.
  - change (4 + fuel)%nat with (S (3 + fuel)). cbn [Matches_loop].
    change (stepIndex (initial s) <? len (trailing_steps (x :: p) w k)) with true.
    cbv iota.
    destruct (consumeSubstring_spec (3 + fuel) s (x :: p)) as [(u & -> & Hs)|[Hno Hs]];
      [discriminate | |].
    + rewrite (Matches_body_before_many (3 + fuel) (trailing_steps (x :: p) w k)
                 (initial ((x :: p) ++ u))
                 (mkScanner consumeSubstring globString (x :: p) 0) true u (len (x :: p))
                 eq_refl ltac:(discriminate) eq_refl Hs).
      cbn [bind]. split; [|intros H; now destruct (H u)].
      intros u' E. apply app_inv_head in E. subst u'.
      set (c1 := mkCursor _ _ _ _ _ _ _).
      apply (Htail fuel (trailing_steps (x :: p) w k) c1 (len (x :: p) + 1)
                   (len ((x :: p) ++ [w]))); reflexivity.
    + rewrite (Matches_body_before_many (3 + fuel) (trailing_steps (x :: p) w k)
                 (initial s)
                 (mkScanner consumeSubstring globString (x :: p) 0) false s 0
                 eq_refl ltac:(discriminate) eq_refl Hs).
      cbn [bind]. split; [|reflexivity]. intros u E. now destruct (Hno u).
Qed.

Lemma Matches_PatternStr_trailing (fuel : nat) (p s : gostring) (w : byte) (k : globKind) :
  no_special p ->
  (w = "*"%byte /\ k = globMany) \/ (w = "?"%byte /\ k = globOne) ->
  Matches fuel (PatternStr (p ++ [w])) s
  = (b <- Matches_loop fuel (trailing_steps p w k) (initial s) ;; Ret (b, None)).
Proof.
  intros Hp Hw. unfold Matches, compiled. rewrite (NewPattern_trailing p w k Hp Hw).
  reflexivity.
Qed.

(** X10.  A pattern made of plain text and a closing asterisk matches
    exactly the candidates that begin with the text: the asterisk takes
    what follows, were it nothing.  The pattern of the one asterisk
    matches every candidate, the empty one as well. *)
Theorem trailing_asterisk_matches_prefix (fuel : nat) (p s : gostring) :
  plain p = true ->
  Matches (4 + fuel) (PatternStr (p ++ [ "*"%byte ])) s
  = Ret (strings.HasPrefix s p, None).
Proof.
  intros Hp. apply plain_no_special in Hp.
  rewrite (Matches_PatternStr_trailing _ p s "*"%byte globMany Hp) by auto.
  destruct (Matches_trailing fuel p s "*"%byte globMany (fun _ => true)) as [Hyes Hno].
  { intros f ss c st e. apply Matches_many_then_end. }
  destruct (strings.HasPrefix s p) eqn:E.
  - apply HasPrefix_iff in E. destruct E as [u E]. now rewrite (Hyes u E).
  - rewrite Hno; [reflexivity|]. intros u Hu.
    assert (strings.HasPrefix s p = true) by (apply HasPrefix_iff; now exists u).
    congruence.
Qed.

Lemma trailing_asterisk_matches_prefix_witness :
  Matches (4 + 0) (PatternStr (str "PLAN9" ++ [ "*"%byte ])) (str "PLAN9")
  = Ret (strings.HasPrefix (str "PLAN9") (str "PLAN9"), None).
Proof.
  apply (trailing_asterisk_matches_prefix 0 (str "PLAN9") (str "PLAN9")).
  reflexivity.
Defined.

(** X11.  A pattern made of plain text and a closing question mark
    matches exactly the candidates made of the text and one more code
    point, where a byte that starts no valid encoding counts as one
    code point. *)
Theorem trailing_question_matches_one_code_point (fuel : nat) (p s : gostring) :
  plain p = true ->
  exists b, Matches (4 + fuel) (PatternStr (p ++ [ "?"%byte ])) s = Ret (b, None) /\
            (b = true <-> exists u, s = p ++ u /\ one_code_point u = true).
Proof.
  intros Hp. apply plain_no_special in Hp.
  rewrite (Matches_PatternStr_trailing _ p s "?"%byte globOne Hp) by auto.
  destruct (Matches_trailing fuel p s "?"%byte globOne one_code_point) as [Hyes Hno].
  { intros f ss c st e. apply Matches_one_then_end. }
  destruct (strings.HasPrefix s p) eqn:E.
  - apply HasPrefix_iff in E. destruct E as [u E]. rewrite (Hyes u E).
    exists (one_code_point u). split; [reflexivity|]. split.
    + intros H. now exists u.
    + intros (u' & E' & H). rewrite E in E'. apply app_inv_head in E'. now subst.
  - assert (Hn : forall u, s <> p ++ u).
    { intros u Hu.
      assert (strings.HasPrefix s p = true) by (apply HasPrefix_iff; now exists u).
      congruence. }
    rewrite (Hno Hn). exists false. split; [reflexivity|]. split; [discriminate|].
    intros (u & Hu & _). now destruct (Hn u).
Qed.

Lemma trailing_question_matches_one_code_point_witness :
  exists b, Matches (4 + 0) (PatternStr (str "baz" ++ [ "?"%byte ])) (str "baz") = Ret (b, None) /\
            (b = true <-> exists u, str "baz" = str "baz" ++ u /\ one_code_point u = true).
Proof.
  apply (trailing_question_matches_one_code_point 0 (str "baz") (str "baz")).
  reflexivity.
Defined.


(** ** The compiled pattern and its text; the caller's filter *)

(** X12.  A compiled pattern gives back, by [String], exactly the text
    it was compiled from, and matching with it gives what matching with
    that text gives, compiled on demand. *)
Theorem compiled_pattern_stands_for_its_text (pat : gostring) (g : GlobPattern)
        (e : option error) :
  NewPattern pat = Ret (Some g, e) ->
  GlobPattern_String g = pat /\
  forall (fuel : nat) (s : gostring),
    Matches fuel (Compiled (Some g)) s = Matches fuel (PatternStr pat) s.
Proof.
  intros H. destruct (NewPattern_Some pat g e H) as (-> & Hp & _).
  split; [exact Hp|]. intros fuel s. unfold Matches, compiled. now rewrite H.
Qed.

Lemma compiled_pattern_stands_for_its_text_witness :
  GlobPattern_String (mkGlobPattern (str "*ab") star_ab) = str "*ab" /\
  forall (fuel : nat) (s : gostring),
    Matches fuel (Compiled (Some (mkGlobPattern (str "*ab") star_ab))) s
    = Matches fuel (PatternStr (str "*ab")) s.
Proof.
  apply (compiled_pattern_stands_for_its_text (str "*ab") _ None).
  reflexivity.
Defined.

(** The walk of [search] offers the path of a regular file to the
    readers exactly when matching the file pattern against its name
    returns true and no error; a file that is not regular is skipped
    without a look at its name, and an error of the walk is returned as
    it is. *)
Lemma walk_visit_offers_matching_names
        (E : Type) (fuel : nat) (filepattern name : gostring) (isDir : bool) :
  (walk_visit (E := E) fuel filepattern None true false name = Ret visit_select <->
   Matches fuel (PatternStr filepattern) name = Ret (true, None)) /\
  walk_visit (E := E) fuel filepattern None false isDir name = Ret visit_skip /\
  (forall (e : E) (isRegular : bool),
      walk_visit fuel filepattern (Some e) isRegular isDir name = Ret (visit_error e)).
Proof.
  split; [|split; reflexivity]. unfold walk_visit. cbn [negb].
  destruct (Matches fuel (PatternStr filepattern) name) as [[ok [err|]]| |] eqn:M;
    cbn [bind is_err andb].
  - split; discriminate.
  - destruct ok; cbn [negb]; split; congruence.
  - split; discriminate.
  - split; discriminate.
Qed.

(** X14.  A file pattern the compiler rejects makes the walk skip every
    regular file: the compiler's error is dropped, not returned. *)
Theorem walk_visit_drops_pattern_error
        (E : Type) (fuel : nat) (filepattern name : gostring) (isDir : bool)
        (g : option GlobPattern) (e : error) :
  NewPattern filepattern = Ret (g, Some e) ->
  walk_visit (E := E) fuel filepattern None true isDir name = Ret visit_skip.
Proof.
  intros H. unfold walk_visit, Matches, compiled. rewrite H. reflexivity.
Qed.

Lemma walk_visit_drops_pattern_error_witness :
  walk_visit (E := error) 0 (str "a**b") None true false (str "aab") = Ret visit_skip.
Proof.
  apply (walk_visit_drops_pattern_error error 0 (str "a**b") (str "aab") false
                                        None ErrInvalidGlobSequence).
  reflexivity.
Defined.


(** X13.  With the file pattern [*], the default of the flag, the walk
    offers every regular file to the readers, whatever its name. *)
Theorem walk_visit_default_pattern_offers_all
        (E : Type) (fuel : nat) (name : gostring) (isDir : bool) :
  walk_visit (E := E) (4 + fuel) (str "*") None true isDir name = Ret visit_select.
Proof.
  unfold walk_visit. cbn [negb].
  assert (Hp : no_special []) by (repeat split; intros []).
  change (str "*") with ([] ++ [ "*"%byte ]).
  rewrite (Matches_PatternStr_trailing _ [] name "*"%byte globMany Hp) by auto.
  destruct (Matches_trailing fuel [] name "*"%byte globMany (fun _ => true)) as [Hyes _].
  { intros f ss c st e. apply Matches_many_then_end. }
  rewrite (Hyes name eq_refl). cbn [bind is_err negb andb]. now rewrite andb_false_r.
Qed.

(** ** No wildcard right after a multi-character wildcard *)

Lemma tails_ok_snoc_same (init : list globScanner) (l l' : globScanner) :
  kind l' = kind l -> tails_ok (init ++ [l]) -> tails_ok (init ++ [l']).
Proof.
  intros Hk. induction init as [|x init IH]; [intros _; exact I|].
  destruct init as [|y init].
  - cbn [app tails_ok]. rewrite Hk. tauto.
  - intros (Hx & Hy & H). split; [exact Hx|]. split; [exact Hy|]. exact (IH H).
Qed.

Lemma tails_ok_snoc_new (init : list globScanner) (l l' new : globScanner) :
  kind l' = kind l ->
  (kind l' = globMany -> substr l' <> []) ->
  kind new <> globString ->
  tails_ok (init ++ [l]) -> tails_ok ((init ++ [l']) ++ [new]).
Proof.
  intros Hk Hs Hn. induction init as [|x init IH].
  - intros _. cbn [app tails_ok]. tauto.
  - destruct init as [|y init].
    + cbn [app tails_ok]. rewrite <- Hk. tauto.
    + intros (Hx & Hy & H). split; [exact Hx|]. split; [exact Hy|]. exact (IH H).
Qed.

Lemma tails_ok_End (ws : list globScanner) (e : globScanner) :
  kind e = globEnd -> tails_ok ws -> adjacent_ok (ws ++ [e]).
Proof.
  intros He. induction ws as [|x ws IH]; [intros _; exact I|].
  destruct ws as [|y ws].
  - intros _. cbn [app adjacent_ok]. rewrite He. repeat split; congruence.
  - intros (Hx & Hy & H). split; [exact Hy|]. split; [intros Hm _; exact (Hx Hm)|].
    exact (IH H).
Qed.

Lemma classify_String (idx : Z) (code : rune) fn start0 :
  classify idx code = Some (fn, start0, globString) ->
  (code =? backslash) = true \/ idx = 0.
Proof.
  unfold classify.
  destruct (code =? backslash); [now left|].
  destruct (code =? asterisk); [discriminate|].
  destruct (code =? question); [discriminate|].
  destruct (idx =? 0) eqn:E; [|discriminate]. apply Z.eqb_eq in E. now right.
Qed.

Lemma slice_not_nil (s sub : gostring) (lo hi : Z) :
  0 <= lo < hi -> hi <= len s -> slice s lo hi = Ret sub -> sub <> [].
Proof.
  intros H1 H2. rewrite slice_ok by lia. intros E; injection E as <-.
  intros E. apply (f_equal (@List.length byte)) in E.
  rewrite length_firstn, length_skipn in E. cbn [List.length] in E.
  unfold len in H2. lia.
Qed.

(** One turn of the compiler's loop keeps [tails_ok]. *)
Lemma compile_step_tails (pat : gostring) (ws ws' : list globScanner)
      (lo idx : Z) (code : rune) :
  compile_inv pat ws lo -> tails_ok ws -> (ws = [] \/ 1 <= lo) ->
  0 <= lo <= idx -> idx < len pat ->
  compile_step pat ws idx code = Ret (Next ws') ->
  tails_ok ws'.
Proof.
  intros [Hall Hlast] Htl Hpos Hlo Hhi. unfold compile_step.
  destruct (classify idx code) as [[[fn start0] k]|] eqn:C;
    [|intros H; now injection H as <-].
  apply classify_Some in C as C'. destruct C' as (-> & Hk & _ & _ & _).
  destruct Hlast as [->|(init & l & -> & Hs & Hst)].
  { change (0 <? len []) with false. cbv iota. intros H; injection H as <-. exact I. }
  destruct Hpos as [Hpos|Hpos]; [now destruct init|].
  rewrite len_snoc_pos, index_last. cbn [bind].
  destruct ((globKind_eqb k globOne || globKind_eqb k globMany)
            && globKind_eqb (kind l) globMany && (start l =? idx)) eqn:F; [discriminate|].
  destruct ((code =? backslash) && (len (substr l) =? 0)) eqn:B.
  - intros H; injection H as <-. rewrite set_last_snoc.
    now apply tails_ok_snoc_same with (l := l).
  - rewrite Hs in B. change (len (@nil byte) =? 0) with true in B.
    rewrite andb_true_r in B.
    assert (Hnot : k <> globString).
    { intros ->. apply classify_String in C. destruct C as [C|C]; [congruence | lia]. }
    destruct (slice pat (start l) idx) as [sub| |] eqn:S; cbn [bind]; try discriminate.
    intros H; injection H as <-. rewrite set_last_snoc.
    apply tails_ok_snoc_new with (l := l); auto.
    cbn [kind substr set_substr]. intros Hl.
    assert (Hne : start l <> idx).
    { intros E. rewrite Hl, E, Z.eqb_refl in F.
      destruct k; try contradiction; discriminate. }
    apply (slice_not_nil pat sub (start l) idx); [lia | lia | assumption].
Qed.

Lemma compile_loop_tails (pat : gostring) (rs : list (Z * rune)) :
  forall ws ws' lo,
    compile_inv pat ws lo -> tails_ok ws -> (ws = [] \/ 1 <= lo) -> 0 <= lo ->
    increasing lo rs (len pat) ->
    (forall idx, In (idx, asterisk) rs -> In "*"%byte pat) ->
    compile_loop pat ws rs = Ret (Next ws') ->
    tails_ok ws'.
Proof.
  induction rs as [|[idx code] rs IH]; intros ws ws' lo Hinv Htl Hpos Hlo Hinc Hstar;
    cbn [compile_loop increasing] in *.
  - intros H; now injection H as <-.
  - destruct Hinc as [Hidx Hinc].
    assert (Hlt : idx < len pat) by (apply increasing_le in Hinc; lia).
    destruct (compile_step_inv pat ws lo idx code Hinv (conj Hlo Hidx) Hlt)
      as [[E _]|(ws1 & E & Hinv')].
    + intros ->. apply (Hstar idx). now left.
    + rewrite E. discriminate.
    + pose proof (compile_step_tails pat ws ws1 lo idx code Hinv Htl Hpos
                                     (conj Hlo Hidx) Hlt E) as Htl1.
      rewrite E. cbn [bind]. apply (IH ws1 ws' (idx + 1)); try assumption; try lia.
      intros i Hi. apply (Hstar i). now right.
Qed.

(** X15.  In a compiled pattern a literal step can only be the first
    step, and a multi-character wildcard step that another wildcard
    step follows has a tail that is not empty: the two wildcards are
    kept apart by text the candidate must hold. *)
Theorem compiled_steps_keep_wildcards_apart (pat : gostring) (g : GlobPattern)
        (e : option error) :
  NewPattern pat = Ret (Some g, e) -> adjacent_ok (steps g).
Proof.
  unfold NewPattern, compileGlobPattern.
  pose proof (compile_loop_inv pat (range_string pat) [] 0) as Hinv.
  pose proof (compile_loop_tails pat (range_string pat) []) as Htl.
  assert (H0 : compile_inv pat [] 0) by (split; [constructor | now left]).
  assert (Hinc : increasing 0 (range_string pat) (len pat))
    by (replace (len pat) with (0 + len pat) by lia; apply range_from_increasing).
  specialize (Hinv H0 ltac:(lia) Hinc (range_string_asterisk pat)).
  destruct Hinv as [[E _]|(ws & E & Hall & Hlast)]; rewrite E; cbn [bind];
    [discriminate|].
  specialize (Htl ws 0 H0 I (or_introl eq_refl) ltac:(lia) Hinc
                  (range_string_asterisk pat) E).
  destruct Hlast as [->|(init & l & -> & Hs & Hst)].
  - change (0 <? len []) with false. cbn [bind app].
    change (len [_] =? 0) with false. cbv iota.
    intros H; injection H as <- <-. exact I.
  - rewrite len_snoc_pos, index_last. cbn [bind].
    rewrite slice_from_ok by lia. cbn [bind]. rewrite set_last_snoc.
    destruct (len _ =? 0); [discriminate|]. intros H; injection H as <- <-.
    cbn [steps]. apply tails_ok_End; [reflexivity|].
    now apply tails_ok_snoc_same with (l := l).
Qed.

Lemma compiled_steps_keep_wildcards_apart_witness :
  adjacent_ok [mkScanner consumeAllPreceding globMany (str "a") 1;
               mkScanner consumeOnePreceding globOne [] 3;
               End_step (str "*a?")].
Proof.
  apply (compiled_steps_keep_wildcards_apart
           (str "*a?")
           (mkGlobPattern (str "*a?")
                          [mkScanner consumeAllPreceding globMany (str "a") 1;
                           mkScanner consumeOnePreceding globOne [] 3;
                           End_step (str "*a?")])
           None).
  reflexivity.
Defined.


(** ** Plain text, an asterisk, plain text *)

Lemma slice_from_app_tail (p : gostring) (w : byte) (q : gostring) :
  slice_from (p ++ w :: q) (len p + 1) = Ret q.
Proof.
  pose proof (len_nonneg p). pose proof (len_nonneg q).
  rewrite slice_from_ok by (rewrite len_app, len_cons; lia).
  replace (Z.to_nat (len p + 1)) with (List.length (p ++ [w]))
    by (rewrite length_app; cbn [List.length]; unfold len; lia).
  replace (p ++ w :: q) with ((p ++ [w]) ++ q) by (now rewrite <- app_assoc).
  now rewrite skipn_app, skipn_all, Nat.sub_diag.
Qed.

(** What plain text, an asterisk and plain text compile to. *)
Lemma NewPattern_infix (p q : gostring) :
  no_special p -> no_special q ->
  NewPattern (p ++ "*"%byte :: q)
  = Ret (Some (mkGlobPattern (p ++ "*"%byte :: q) (infix_steps p q)), None).
Proof.
  intros Hp Hq.
  assert (Hb : byteZ "*"%byte < utf8.RuneSelf) by reflexivity.
  assert (Hrest : forall pat ws i, 1 <= i ->
                    compile_loop pat ws (range_from q i 0) = Ret (Next ws)).
  { intros pat ws i Hi. apply compile_loop_plain. intros idx code H.
    pose proof (plain_codes q _ _ _ _ Hq H). apply range_from_In in H.
    split; [lia | assumption]. }
  pose proof (slice_from_app_tail p "*"%byte q) as S2.
  pose proof (len_nonneg p) as Hlen.
  unfold NewPattern, compileGlobPattern, range_string, infix_steps.
  rewrite (range_from_app_ascii p "*"%byte q Hb 0 0 (Nat.le_0_l _)).
  rewrite compile_loop_app. destruct p as [|b t].
  - cbn [range_from compile_loop bind app] in *. unfold compile_step at 1.
    change (classify (0 + len []) (byteZ "*"%byte))
      with (Some (consumeAllPreceding, -1, globMany)).
    change (0 <? len []) with false. cbv iota beta. cbn [bind app].
    change (-1 =? -1) with true. cbv iota.
    rewrite Hrest by (change (len (@nil byte)) with 0; lia). cbn [bind].
    change (0 <? len [_]) with true. cbv iota.
    change (index [?x] (len [?x] - 1)) with (Ret x). cbn [bind start].
    change (0 + len [] + utf8.RuneLen (byteZ "*"%byte)) with (len (@nil byte) + 1).
    rewrite S2. reflexivity.
  - pose proof (slice_app_head (b :: t) ("*"%byte :: q)) as S1.
    pose proof (compile_loop_plain_text ((b :: t) ++ "*"%byte :: q) b t Hp) as L.
    assert (Hne : b :: t <> []) by discriminate.
    remember (b :: t) as p eqn:Ep. clear Ep.
    remember (p ++ "*"%byte :: q) as pat eqn:Epat.
    rewrite L. cbn [bind compile_loop]. unfold compile_step at 1.
    change (classify (0 + len p) (byteZ "*"%byte))
      with (Some (consumeAllPreceding, -1, globMany)).
    change (0 <? len [_]) with true. cbv iota.
    change (index [?x] (len [?x] - 1)) with (Ret x).
    cbn [bind kind start substr globKind_eqb orb andb].
    change (byteZ "*"%byte =? backslash) with false. cbn [andb].
    rewrite Z.add_0_l, S1. cbn [bind set_last set_substr scanner kind start app].
    change (-1 =? -1) with true. cbv iota.
    rewrite Hrest by lia. cbn [bind].
    change (0 <? len [_; _]) with true. cbv iota.
    change (index [?x; ?y] (len [?x; ?y] - 1)) with (Ret y). cbn [bind start].
    change (len p + utf8.RuneLen (byteZ "*"%byte)) with (len p + 1).
    rewrite S2. cbn [bind set_last set_substr scanner kind start app].
    change (len [_; _; _] =? 0) with false. cbv iota.
    destruct p; [contradiction | reflexivity].
Qed.

(** The scan of a tail that first occurs right after the text [m], not
    empty, takes [m] and the tail. *)
Lemma consumeAllPreceding_after_gap (fuel : nat) (m q : gostring) :
  m <> [] -> q <> [] ->
  (forall j, (j < List.length m)%nat -> strings.HasPrefix (skipn j (m ++ q)) q = false) ->
  consumeAllPreceding (1 + fuel)%nat (m ++ q) q = Ret (true, [], len m + len q).
Proof.
  intros Hm Hq Hno. destruct m as [|b m]; [contradiction|].
  assert (Hat : strings.HasPrefix (skipn (List.length (b :: m)) ((b :: m) ++ q)) q = true).
  { rewrite skipn_app, skipn_all, Nat.sub_diag. cbn [skipn app].
    apply HasPrefix_iff. exists []. now rewrite app_nil_r. }
  pose proof (Index_at_first q (List.length (b :: m)) ((b :: m) ++ q) 0 Hno Hat) as Hi.
  fold (strings.Index ((b :: m) ++ q) q) in Hi.
  destruct (consumeAllPreceding_cases fuel b (m ++ q) q Hq) as (_ & H & _).
  change (b :: m ++ q) with ((b :: m) ++ q) in H. rewrite H by (rewrite Hi; cbn; lia).
  rewrite Hi.
  replace (Z.to_nat (0 + Z.of_nat (List.length (b :: m)) + len q))
    with (List.length ((b :: m) ++ q)) by (rewrite length_app; unfold len; lia).
  rewrite skipn_all. now rewrite Z.add_0_l.
Qed.

(** The loop at a [globMany] step that only the End step follows, before
    any backtracking point is set, on an input made of a gap and the
    tail, where the tail does not occur earlier. *)
Lemma Matches_many_gap_then_end (fuel : nat) (ss : list globScanner) (c : cursor)
      (m q : gostring) (st e : Z) :
  index ss (stepIndex c) = Ret (mkScanner consumeAllPreceding globMany q st) ->
  index ss (stepIndex c + 1) = Ret (mkScanner consumeEnd globEnd [] e) ->
  len ss = stepIndex c + 2 ->
  firstMany c = -1 ->
  rest c = m ++ q -> m <> [] -> q <> [] ->
  (forall j, (j < List.length m)%nat -> strings.HasPrefix (skipn j (m ++ q)) q = false) ->
  Matches_loop (3 + fuel) ss c = Ret true.
Proof.
  intros Hi He Hlen Hf Hr Hm Hq Hno. change (3 + fuel)%nat with (S (S (S fuel))).
  cbn [Matches_loop].
  replace (stepIndex c <? len ss) with true by (symmetry; apply Z.ltb_lt; lia).
  unfold Matches_body at 1. rewrite Hi. cbn [bind]. unfold record_many. rewrite Hf.
  change (-1 =? -1) with true. cbn [orb andb kind globKind_eqb]. unfold scan.
  cbn [scanner substr rest stepIndex firstMany firstManySubstr wasReset]. rewrite Hr.
  pose proof (consumeAllPreceding_after_gap (S fuel) m q Hm Hq Hno) as Hs.
  cbn [Nat.add] in Hs. rewrite Hs.
  cbn [bind andb]. rewrite Z.eqb_refl.
  replace (len m + len q - len q) with (len m) by lia.
  rewrite slice_from_ok by (rewrite len_app; pose proof (len_nonneg m);
                            pose proof (len_nonneg q); lia).
  cbn [bind]. unfold advance at 1.
  cbn [matches negb stepIndex rest bytesConsumed firstMany firstManySubstr wasReset bind].
  replace (stepIndex c + 1 <? len ss) with true by (symmetry; apply Z.ltb_lt; lia).
  unfold Matches_body. cbn [stepIndex]. rewrite He. cbn [bind]. unfold record_many.
  cbn [kind globKind_eqb]. rewrite andb_false_r. unfold scan.
  cbn [scanner substr rest stepIndex firstMany firstManySubstr wasReset].
  unfold consumeEnd. change (len (@nil byte) =? 0) with true. cbn [bind andb].
  replace (stepIndex c =? stepIndex c + 1) with false by (symmetry; apply Z.eqb_neq; lia).
  unfold advance. cbn [matches negb stepIndex rest bytesConsumed firstMany
                       firstManySubstr wasReset bind].
  replace (stepIndex c + 1 + 1 <? len ss) with false by (symmetry; apply Z.ltb_ge; lia).
  change (len (@nil byte) =? 0) with true.
  replace (stepIndex c + 1 + 1 =? len ss) with true by (symmetry; apply Z.eqb_eq; lia).
  reflexivity.
Qed.

(** X16.  A pattern made of plain text, an asterisk and more plain text
    matches a candidate made of the first text, a gap that is not empty
    and the second text, when the second text does not occur in the gap
    (nor astride the gap and itself); and it matches no candidate that
    does not begin with the first text. *)
Theorem infix_asterisk_matches_gap (fuel : nat) (p q m s : gostring) :
  plain p = true -> plain q = true -> q <> [] ->
  (m <> [] ->
   (forall j, (j < List.length m)%nat -> strings.HasPrefix (skipn j (m ++ q)) q = false) ->
   Matches (4 + fuel) (PatternStr (p ++ "*"%byte :: q)) (p ++ m ++ q) = Ret (true, None)) /\
  ((forall u, s <> p ++ u) ->
   Matches (4 + fuel) (PatternStr (p ++ "*"%byte :: q)) s = Ret (false, None)).
Proof.
  intros Hp Hq Hne. apply plain_no_special in Hp, Hq.
  unfold Matches, compiled. rewrite (NewPattern_infix p q Hp Hq).
  cbn [bind is_err matcher_Matches]. unfold GlobPattern_Matches. cbn [steps].
  destruct p as [|x p].
  - split; [|intros H; now destruct (H s)]. intros Hm Hno. cbn [app].
    change (4 + fuel)%nat with (3 + (1 + fuel))%nat.
    rewrite (Matches_many_gap_then_end (1 + fuel) (infix_steps [] q) (initial (m ++ q))
               m q (len (@nil byte) + 1) (len ([] ++ "*"%byte :: q)));
      auto; reflexivity.
  - change (4 + fuel)%nat with (S (3 + fuel)). cbn [Matches_loop].
    change (stepIndex (initial ?s) <? len (infix_steps (x :: p) q)) with true.
    cbv iota. split.
    + intros Hm Hno.
      destruct (consumeSubstring_spec (3 + fuel) ((x :: p) ++ m ++ q) (x :: p))
        as [(u & E & Hs)|[Habs _]]; [discriminate | | now destruct (Habs (m ++ q))].
      apply app_inv_head in E. subst u.
      rewrite (Matches_body_before_many (3 + fuel) (infix_steps (x :: p) q)
                 (initial ((x :: p) ++ m ++ q))
                 (mkScanner consumeSubstring globString (x :: p) 0) true (m ++ q)
                 (len (x :: p)) eq_refl ltac:(discriminate) eq_refl Hs).
      cbn [bind]. set (c1 := mkCursor _ _ _ _ _ _ _).
      rewrite (Matches_many_gap_then_end fuel (infix_steps (x :: p) q) c1
                 m q (len (x :: p) + 1) (len ((x :: p) ++ "*"%byte :: q)));
        auto; reflexivity.
    + intros Habs.
      destruct (consumeSubstring_spec (3 + fuel) s (x :: p))
        as [(u & E & _)|[_ Hs]]; [discriminate | now destruct (Habs u) |].
      rewrite (Matches_body_before_many (3 + fuel) (infix_steps (x :: p) q)
                 (initial s)
                 (mkScanner consumeSubstring globString (x :: p) 0) false s 0
                 eq_refl ltac:(discriminate) eq_refl Hs).
      reflexivity.
Qed.


Lemma infix_asterisk_matches_gap_witness :
  Matches (4 + 0) (PatternStr (str "foo/bar/" ++ "*"%byte :: str "/baz"))
          (str "foo/bar/" ++ str "quz" ++ str "/baz")
  = Ret (true, None).
Proof.
  apply (proj1 (infix_asterisk_matches_gap 0 (str "foo/bar/") (str "/baz") (str "quz") []
                  eq_refl eq_refl ltac:(discriminate))).
  - discriminate.
  - intros [|[|[|j]]] Hj; try reflexivity. exfalso.
    apply (Nat.lt_irrefl 3). apply Nat.le_lt_trans with (S (S (S j))); [|exact Hj].
    repeat apply le_n_S. apply Nat.le_0_l.
Defined.
